(** * bittensor: the validator's evaluate-score-commit loop and the chain client

    A shallow embedding of
    - [bittensor/_subtensor/subtensor_impl.py]: the retry-wrapped chain
      queries and the weight-commit submission [_do_set_weights];
    - [bittensor/_neuron/text/core_validator/validator_impl.py]: the gate
      table of the nucleus, the forward (scoring) pass and [run_epoch].

    Conventions.  Python exceptions are values of [exn]; a call either
    returns or raises ([outcome]).  Everything the program does to the
    outside world (substrate RPCs, [time.sleep]) is appended to an event log
    that is threaded through the chain client, so "how many times" and "in
    which order" are statements about that log.  Numbers in tensors are exact
    rationals ([Qc]) and a float is a number, an infinity or nan, so that a
    division by zero goes on as it does in torch; the rounding of 32-bit
    floats is not modelled. *)

From Stdlib Require Import ZArith QArith Qcanon List Permutation Sorted Lia.
From stdpp Require Import base option list gmap strings numbers.

Local Open Scope Z_scope.

(** ** Exceptions and outcomes *)

Inductive exn : Type :=
| TransportError (msg : string)      (* transient fault of the RPC transport *)
| KeyError (key : nat)               (* dict lookup of an absent key *)
| IndexError (index : nat)           (* tensor or list index out of range *)
| RuntimeError (msg : string)        (* raised by a torch primitive *)
| TypeError (msg : string)           (* a call without a required argument *)
| UnboundLocalError (var : string)   (* local variable read before assignment *)
| ZeroDivisionError                  (* integer division or modulo by zero *)
| KeyboardInterrupt.

Inductive outcome (A : Type) : Type :=
| Returned (a : A)
| Raised (e : exn).
Arguments Returned {A} a.
Arguments Raised {A} e.

Global Instance exn_eq_dec : EqDecision exn.
Proof. solve_decision. Defined.

Global Instance outcome_eq_dec {A} `{EqDecision A} : EqDecision (outcome A).
Proof. solve_decision. Defined.

Definition obind {A B} (o : outcome A) (k : A -> outcome B) : outcome B :=
  match o with
  | Returned a => k a
  | Raised e => Raised e
  end.

Notation "'let!' x ':=' o 'in' k" := (obind o (fun x => k))
  (at level 10, x pattern, o at level 100, k at level 200,
   format "'[v' 'let!'  x  ':='  o  'in' '/' k ']'").

(** [for x in xs: acc = body(acc, x)], stopping at the first raise. *)
Fixpoint ofold {A B} (body : B -> A -> outcome B) (xs : list A) (acc : B)
  : outcome B :=
  match xs with
  | [] => Returned acc
  | x :: rest => obind (body acc x) (ofold body rest)
  end.

(** [[f(x) for x in xs]], stopping at the first raise. *)
Fixpoint omapM {A B} (f : A -> outcome B) (xs : list A) : outcome (list B) :=
  match xs with
  | [] => Returned []
  | x :: rest =>
      obind (f x) (fun y => obind (omapM f rest) (fun ys => Returned (y :: ys)))
  end.

(** ** The chain client: [subtensor_impl.py] *)

Module Subtensor.

(** What the substrate interface is asked to do. *)
Record GenericCall := {
  call_module : string;
  call_function : string;
  dests : list Z;
  weights : list Z;
  netuid : Z;
  version_key : Z
}.

Record Extrinsic := {
  ext_call : GenericCall;
  ext_keypair : string;
  ext_period : Z
}.

(** The receipt object [submit_extrinsic] returns; [process_events] fills
    [is_success] and [error_message] from the block's events. *)
Record ExtrinsicReceipt := {
  is_success : bool;
  error_message : option string
}.

Inductive Event : Type :=
| EQuery (module storage_function : string) (params : list string)
         (block_hash : option string)
| EGetBlockHash (block : Z)
| EGetBlockNumber
| EComposeCall (c : GenericCall)
| ECreateSignedExtrinsic (c : GenericCall) (keypair : string) (period : Z)
| ESubmitExtrinsic (x : Extrinsic) (wait_for_inclusion wait_for_finalization : bool)
| ESleep (seconds : Z).

Definition Log := list Event.

(** The external collaborator: the substrate interface together with the
    node behind it.  Each entry point sees the log of everything done so far,
    so its answer may change from one attempt to the next. *)
Record SubstrateInterface := {
  query : Log -> string -> string -> list string -> option string -> outcome string;
  get_block_hash : Log -> Z -> outcome string;
  get_block_number : Log -> outcome Z;
  compose_call : Log -> GenericCall -> outcome GenericCall;
  create_signed_extrinsic : Log -> GenericCall -> string -> Z -> outcome Extrinsic;
  submit_extrinsic : Log -> Extrinsic -> bool -> bool -> outcome ExtrinsicReceipt
}.

(** Computations of the client: they read and extend the log. *)
Definition M (A : Type) : Type := Log -> outcome A * Log.

Definition ret {A} (a : A) : M A := fun log => (Returned a, log).
Definition raise {A} (e : exn) : M A := fun log => (Raised e, log).
Definition bind {A B} (m : M A) (k : A -> M B) : M B :=
  fun log =>
    match m log with
    | (Returned a, log') => k a log'
    | (Raised e, log') => (Raised e, log')
    end.

(** One RPC: record the event, then take the collaborator's answer, which is
    computed from the log before the call. *)
Definition rpc {A} (ev : Event) (answer : Log -> outcome A) : M A :=
  fun log => (answer log, log ++ [ev]).

Definition sleep (seconds : Z) : M unit :=
  fun log => (Returned tt, log ++ [ESleep seconds]).

Notation "'do' x <- m ; k" := (bind m (fun x => k))
  (at level 10, x name, m at level 100, k at level 200).

(** *** The [retry] decorator *)

(** Modelled from the spec: the [retry] decorator comes from the [retry]
    package, which is not under src/.  The spec describes it as a retry
    combinator over a zero-argument operation with a policy of attempts,
    delay, backoff and max-delay: a failed attempt is followed by a sleep of
    the current delay, the delay is then multiplied by the backoff and capped
    at the max-delay, and the failure of the last attempt is surfaced.  With
    no attempts at all the loop body never runs and nothing is returned
    ([None]). *)
Record RetryPolicy := {
  tries : nat;
  delay : Z;
  backoff : Z;
  max_delay : Z
}.

Fixpoint retry_loop {A} (f : M A) (backoff max_delay : Z)
    (tries_left : nat) (cur_delay : Z) : M (option A) :=
  match tries_left with
  | O => ret None
  | S remaining =>
      fun log =>
        match f log with
        | (Returned a, log') => (Returned (Some a), log')
        | (Raised e, log') =>
            match remaining with
            | O => (Raised e, log')
            | S _ =>
                bind (sleep cur_delay)
                     (fun _ => retry_loop f backoff max_delay remaining
                                 (Z.min (cur_delay * backoff) max_delay))
                     log'
            end
        end
  end.

Definition retry {A} (p : RetryPolicy) (f : M A) : M (option A) :=
  retry_loop f (backoff p) (max_delay p) (tries p) (delay p).

(** [@retry(delay=2, tries=3, backoff=2, max_delay=4)], as written above
    every [make_substrate_call_with_retry]. *)
Definition substrate_policy : RetryPolicy :=
  {| tries := 3; delay := 2; backoff := 2; max_delay := 4 |}.

Section Client.

Variable substrate : SubstrateInterface.

(** [block_hash = None if block == None else substrate.get_block_hash(block)] *)
Definition block_hash_of (block : option Z) : M (option string) :=
  match block with
  | None => ret None
  | Some b =>
      do h <- rpc (EGetBlockHash b) (fun log => get_block_hash substrate log b);
      ret (Some h)
  end.

Definition query_subtensor (name : string) (block : option Z)
    (params : list string) : M (option string) :=
  let make_substrate_call_with_retry : M string :=
    do bh <- block_hash_of block;
    rpc (EQuery "SubtensorModule" name params bh)
        (fun log => query substrate log "SubtensorModule" name params bh) in
  retry substrate_policy make_substrate_call_with_retry.

Definition query_module (module name : string) (block : option Z)
    (params : list string) : M (option string) :=
  let make_substrate_call_with_retry : M string :=
    do bh <- block_hash_of block;
    rpc (EQuery module name params bh)
        (fun log => query substrate log module name params bh) in
  retry substrate_policy make_substrate_call_with_retry.

Definition get_current_block : M (option Z) :=
  let make_substrate_call_with_retry : M Z :=
    rpc EGetBlockNumber (fun log => get_block_number substrate log) in
  retry substrate_policy make_substrate_call_with_retry.

(** [_do_set_weights]: compose, sign, submit once; the receipt is looked at
    only when the caller waits for inclusion or finalization.  The result is
    the pair (success, error_message). *)
Definition _do_set_weights (hotkey : string) (uids vals : list Z)
    (netuid version_key : Z)
    (wait_for_inclusion wait_for_finalization : bool)
  : M (bool * option string) :=
  let params := {| call_module := "SubtensorModule";
                   call_function := "set_weights";
                   dests := uids; weights := vals;
                   netuid := netuid; version_key := version_key |} in
  do call <- rpc (EComposeCall params)
                 (fun log => compose_call substrate log params);
  do extrinsic <- rpc (ECreateSignedExtrinsic call hotkey 100)
                      (fun log => create_signed_extrinsic substrate log call hotkey 100);
  do response <- rpc (ESubmitExtrinsic extrinsic wait_for_inclusion wait_for_finalization)
                     (fun log => submit_extrinsic substrate log extrinsic
                                   wait_for_inclusion wait_for_finalization);
  if negb wait_for_finalization && negb wait_for_inclusion then
    ret (true, None)
  else if is_success response then
    ret (true, None)
  else
    ret (false, error_message response).

End Client.

(** [Subtensor.set_weights], lines 148-169.  [wallet], [netuid], [uids] and
    [weights] have no default value, so a call that leaves [netuid] out
    raises [TypeError] before the body runs ([None] stands for an argument
    that was not passed).  The body hands everything on to
    [set_weights_extrinsic] with the defaults of the other arguments;
    [set_weights_extrinsic] and the constant [bittensor.__version_as_int__]
    are not under src/ and are taken as parameters. *)
Definition set_weights {U W : Type}
    (set_weights_extrinsic :
       string -> Z -> U -> W -> Z -> bool -> bool -> bool -> outcome bool)
    (version_as_int : Z)
    (wallet : string) (netuid : option Z) (uids : U) (weights : W)
  : outcome bool :=
  match netuid with
  | None =>
      Raised (TypeError
        "set_weights() missing 1 required positional argument: 'netuid'")
  | Some netuid =>
      set_weights_extrinsic wallet netuid uids weights version_as_int
                            false false false
  end.

(** Observations on a log. *)
Definition is_attempt (ev : Event) : bool :=
  match ev with
  | EQuery _ _ _ _ | EGetBlockNumber => true
  | _ => false
  end.

Definition is_submission (ev : Event) : bool :=
  match ev with
  | ESubmitExtrinsic _ _ _ => true
  | _ => false
  end.

Definition slept (log : Log) : list Z :=
  flat_map (fun ev => match ev with ESleep d => [d] | _ => [] end) log.

Definition submissions (log : Log) : nat := length (List.filter is_submission log).

(** The first RPC an attempt of a block-qualified query makes: the block
    hash is resolved before the query itself is sent. *)
Definition first_rpc (block : option Z) (q : option string -> Event) : Event :=
  match block with
  | None => q None
  | Some b => EGetBlockHash b
  end.

(** The transport is down: every RPC a query can make fails with the same
    transient fault. *)
Definition transport_down (s : SubstrateInterface) (msg : string) : Prop :=
  (forall log m f p bh, query s log m f p bh = Raised (TransportError msg)) /\
  (forall log b, get_block_hash s log b = Raised (TransportError msg)) /\
  (forall log, get_block_number s log = Raised (TransportError msg)).

(** The transaction reaches the transport layer: composing, signing and
    submitting all return, with some receipt. *)
Definition handed_to_transport (s : SubstrateInterface) (log : Log)
    (hotkey : string) (uids vals : list Z) (netuid version_key : Z)
    (wait_for_inclusion wait_for_finalization : bool)
    (x : Extrinsic) (receipt : ExtrinsicReceipt) : Prop :=
  let params := {| call_module := "SubtensorModule";
                   call_function := "set_weights";
                   dests := uids; weights := vals;
                   netuid := netuid; version_key := version_key |} in
  exists call,
    compose_call s log params = Returned call /\
    create_signed_extrinsic s (log ++ [EComposeCall params]) call hotkey 100
      = Returned x /\
    submit_extrinsic s
      (log ++ [EComposeCall params] ++ [ECreateSignedExtrinsic call hotkey 100])
      x wait_for_inclusion wait_for_finalization = Returned receipt.

(** *** Scenario substrates *)

(** A node that cannot be reached. *)
Definition offline_substrate : SubstrateInterface :=
  {| query := fun _ _ _ _ _ => Raised (TransportError "connection reset");
     get_block_hash := fun _ _ => Raised (TransportError "connection reset");
     get_block_number := fun _ => Raised (TransportError "connection reset");
     compose_call := fun _ _ => Raised (TransportError "connection reset");
     create_signed_extrinsic := fun _ _ _ _ => Raised (TransportError "connection reset");
     submit_extrinsic := fun _ _ _ _ => Raised (TransportError "connection reset") |}.

(** A reachable node whose ledger rejects every weight commit. *)
Definition rejecting_substrate (reason : string) : SubstrateInterface :=
  {| query := fun _ _ _ _ _ => Returned "0x00";
     get_block_hash := fun _ _ => Returned "0xabc";
     get_block_number := fun _ => Returned 100;
     compose_call := fun _ c => Returned c;
     create_signed_extrinsic := fun _ c k p =>
       Returned {| ext_call := c; ext_keypair := k; ext_period := p |};
     submit_extrinsic := fun _ _ _ _ =>
       Returned {| is_success := false; error_message := Some reason |} |}.

End Subtensor.

(** ** The validator: [validator_impl.py] *)

Module Validator.

Local Open Scope Qc_scope.

(** *** Floats *)

(** A float is a number, an infinity or nan.  The losses, gate outputs and
    noise samples the validator is given are numbers, so the tensors of the
    forward pass hold numbers; the division of line 177 is the one operation
    of the modelled code that can leave them, and what it produces is
    carried through the mean and the top-k selection as IEEE does. *)
Inductive Float := Finite (x : Qc) | PosInf | NegInf | NaN.

Global Instance Float_eq_dec : EqDecision Float.
Proof. solve_decision. Defined.

(** [x / c] for two numbers: a division by zero is an infinity with the sign
    of [x], and nan when [x] is zero as well (the zero is the sum of a
    tensor, which is +0 as soon as one of its entries is not zero). *)
Definition fdiv (x c : Qc) : Float :=
  if decide (c = 0) then
    if decide (0 < x) then PosInf
    else if decide (x < 0) then NegInf
    else NaN
  else Finite (x / c).

(** [a + b]: nan spreads, and so does an infinity unless it meets the
    opposite one, which gives nan. *)
Definition fadd (a b : Float) : Float :=
  match a, b with
  | NaN, _ | _, NaN => NaN
  | PosInf, NegInf | NegInf, PosInf => NaN
  | PosInf, _ | _, PosInf => PosInf
  | NegInf, _ | _, NegInf => NegInf
  | Finite x, Finite y => Finite (x + y)
  end.

(** [a / k] for a number of rows [k]. *)
Definition fdiv_count (a : Float) (k : nat) : Float :=
  match a with
  | Finite x => fdiv x (Qc_of_Z (Z.of_nat k))
  | PosInf => PosInf
  | NegInf => NegInf
  | NaN => NaN
  end.

(** The order [torch.topk] ranks by: nan counts as larger than everything
    else, the infinities lie at the two ends of the numbers. *)
Definition rank_le (a b : Float) : Prop :=
  match a, b with
  | _, NaN => True
  | NaN, _ => False
  | NegInf, _ => True
  | _, NegInf => False
  | _, PosInf => True
  | PosInf, _ => False
  | Finite x, Finite y => x ≤ y
  end.

Global Instance rank_le_dec : RelDecision rank_le.
Proof. intros [x| | |] [y| | |]; cbn; apply _. Defined.

(** *** Tensors *)

(** One-dimensional tensors, with the few torch operations the validator
    uses: [Tensor] where every entry is known to be a number, [FloatTensor]
    where it need not be.  An index past the end raises. *)
Abbreviation Tensor := (list Qc).
Abbreviation FloatTensor := (list Float).

Definition zeros (n : nat) : Tensor := replicate n 0.

Definition tsum (t : Tensor) : Qc := foldr Qcplus 0 t.


Definition tneg (t : Tensor) : Tensor := map Qcopp t.

(** [t / c]: entry by entry, without a test on [c]. *)
Definition tdiv (t : Tensor) (c : Qc) : FloatTensor :=
  map (fun x => fdiv x c) t.

(** [t[i] = v] *)
Definition tset (t : Tensor) (i : nat) (v : Qc) : outcome Tensor :=
  if decide (i < length t)%nat then Returned (<[i := v]> t)
  else Raised (IndexError i).

(** [l[i]] on a Python list or a tensor *)
Definition getitem {A} (l : list A) (i : nat) : outcome A :=
  match l !! i with
  | Some a => Returned a
  | None => Raised (IndexError i)
  end.

(** [torch.cat] of a list of per-uid columns raises on the empty list. *)
Definition torch_cat (columns : Tensor) : outcome Tensor :=
  match columns with
  | [] => Raised (RuntimeError "torch.cat(): expected a non-empty list of Tensors")
  | _ :: _ => Returned columns
  end.

(** [enumerate(t)] *)
Definition enumerate {A} (l : list A) : list (nat * A) :=
  zip (seq 0 (length l)) l.

(** [torch.topk(t, k)]: the [k] highest-ranked entries in decreasing order,
    with their indices.  Among equally ranked entries the lower index comes
    first (torch leaves the choice open; the spec's selection breaks ties by
    lowest uid). *)
Fixpoint insert_desc (x : nat * Float) (l : list (nat * Float))
  : list (nat * Float) :=
  match l with
  | [] => [x]
  | y :: rest =>
      if bool_decide (rank_le (snd y) (snd x)) then x :: l
      else y :: insert_desc x rest
  end.

Definition sort_desc (l : list (nat * Float)) : list (nat * Float) :=
  foldr insert_desc [] l.

Definition topk (t : FloatTensor) (k : nat) : outcome (FloatTensor * list nat) :=
  if decide (k ≤ length t)%nat then
    let top := take k (sort_desc (enumerate t)) in
    Returned (map snd top, map fst top)
  else Raised (RuntimeError "selected index k out of range").

(** Modelled from the spec: [bittensor.unbiased_topk] is not under src/; the
    spec calls it top-K selection over the moving average.  It returns the
    selected scores and their uids, ranked as [torch.topk] ranks floats. *)
Definition unbiased_topk (values : FloatTensor) (k : nat)
  : outcome (FloatTensor * list nat) :=
  topk values k.

(** [torch.stack(ts)]: the tensors as the rows of a matrix. *)
Definition stack (ts : list FloatTensor) : outcome (list FloatTensor) :=
  match ts with
  | [] => Raised (RuntimeError "stack expects a non-empty TensorList")
  | t :: rest =>
      if forallb (fun t' => Nat.eqb (length t') (length t)) rest
      then Returned ts
      else Raised (RuntimeError "stack expects each tensor to be equal size")
  end.

(** [rows.mean(0)]: the column sums divided by the number of rows. *)
Definition tadd (a b : FloatTensor) : FloatTensor := zip_with fadd a b.

Definition column_sums (rows : list FloatTensor) : FloatTensor :=
  match rows with
  | [] => []
  | r :: rest => foldl tadd r rest
  end.

Definition mean0 (rows : list FloatTensor) : FloatTensor :=
  map (fun s => fdiv_count s (length rows)) (column_sums rows).

(** *** The nucleus: gates *)

(** A gate is a [torch.nn.Linear(network_dim, 1)]. *)
Record Linear := { weight : list Qc; bias : Qc }.

(** [Nucleus.__init__]: [self.gates = {}] filled for [uid in range(2000)].
    [fresh] stands for the random initialisation of each new layer. *)
Definition init_gates (fresh : nat -> Linear) : gmap nat Linear :=
  foldl (fun gates uid => <[uid := fresh uid]> gates) ∅ (seq 0 2000).

(** [Nucleus.reset_weights]: the loop over [range(2000)] re-draws the weight
    of [self.gates[uid]] in place ([xavier] stands for the draw).  The other
    layers it re-initialises hold no per-uid state and are left out. *)
Definition reset_weights (xavier : nat -> list Qc) (gates : gmap nat Linear)
  : outcome (gmap nat Linear) :=
  ofold (fun gates uid =>
           match gates !! uid with
           | Some g => Returned (<[uid := {| weight := xavier uid; bias := bias g |}]> gates)
           | None => Raised (KeyError uid)
           end)
        (seq 0 2000) gates.

(** The table holds a gate for the uids 0 to 1999 and for no other. *)
Definition gate_table_full (gates : gmap nat Linear) : Prop :=
  forall uid, is_Some (gates !! uid) <-> (uid < 2000)%nat.

(** *** The forward pass *)

Inductive ReturnCode := Success | Timeout | Unavailable | ProtocolError.

Global Instance ReturnCode_eq_dec : EqDecision ReturnCode.
Proof. solve_decision. Defined.

(** [metagraph.n.item()], [metagraph.uids.tolist()], [metagraph.endpoints]. *)
Record Metagraph := {
  n : nat;
  uids : list nat;
  endpoints : list string
}.

Section Forward.

Context {Response Hidden : Type}.

(** What one call of [forward] takes from outside the modelled code. *)
Record World := {
  (* batch mean of a gate applied to the routing context *)
  route : Linear -> Qc;
  (* the [torch.normal] sample added to the i-th routing weight *)
  noise : nat -> Qc;
  (* [dendrite.forward_text]: responses and return codes, one per endpoint *)
  forward_text : list string -> list Response * list ReturnCode;
  (* the combination function that joins responses into one hidden state *)
  combine : list Response -> Hidden;
  (* [get_target_loss(hidden, inputs)], in training or in eval mode *)
  get_target_loss : bool -> Hidden -> Qc
}.

(** The responses that enter an aggregate: the successful ones, except the
    one at position [skip]. *)
Definition joined_responses (skip : option nat)
    (return_ops : list ReturnCode) (responses : list Response)
  : list Response :=
  omap (fun '(i, (r, op)) =>
          if bool_decide (op = Success) && negb (bool_decide (skip = Some i))
          then Some r else None)
       (enumerate (zip responses return_ops)).

(** Modelled from the spec: [joining_context] is not under src/.  The spec's
    joint aggregate J combines all successful results with the pluggable
    combination function. *)
Definition joining_context (w : World) (return_ops : list ReturnCode)
    (responses : list Response) : Hidden :=
  combine w (joined_responses None return_ops responses).

(** A Python dict as the list of its items in insertion order:
    [d[k] = v] replaces the value of a present key and appends a new one. *)
Fixpoint dict_set {V} (d : list (nat * V)) (k : nat) (v : V) : list (nat * V) :=
  match d with
  | [] => [(k, v)]
  | (k', v') :: rest =>
      if Nat.eqb k' k then (k, v) :: rest else (k', v') :: dict_set rest k v
  end.

(** Modelled from the spec: [partial_contexts] is not under src/.  For each
    peer p of the queried subset the spec recomputes the aggregate with p
    excluded; the result is the dict from p to that aggregate. *)
Definition partial_contexts (w : World) (return_ops : list ReturnCode)
    (routing_uids : list nat) (responses : list Response)
  : list (nat * Hidden) :=
  foldl (fun d '(i, uid) =>
           dict_set d uid (combine w (joined_responses (Some i) return_ops responses)))
        [] (enumerate routing_uids).

(** Line 299: [torch.normal(0, torch.std(batchwise_routing_weights).item(),
    size)].  [torch.std] divides by the number of entries less one, so over a
    single entry it is nan, and [torch.normal] raises on a deviation that is
    not [>= 0].  Over two entries or more the deviation is a number and the
    sample drawn is the world's (any sample: that equal gate outputs have
    deviation 0 and leave no noise is not used). *)
Definition torch_normal_std (w : World) (batchwise_routing_weights : Tensor)
  : outcome (nat -> Qc) :=
  if decide (length batchwise_routing_weights ≤ 1)%nat then
    Raised (RuntimeError "normal expects std >= 0.0, but found std nan")
  else Returned (noise w).

(** Lines 283-312: gate scores for every uid of the metagraph, noise, and the
    indices of the [real_topk] largest routing weights. *)
Definition select (gates : gmap nat Linear) (topk_cfg : nat)
    (m : Metagraph) (w : World) : outcome (list nat) :=
  let! gate_out :=
    omapM (fun uid => match gates !! uid with
                      | Some g => Returned (route w g)
                      | None => Raised (KeyError uid)
                      end) (uids m) in
  let! batchwise_routing_weights := torch_cat gate_out in
  let! noisy_routing_weights :=
    torch_normal_std w batchwise_routing_weights in
  let! routing_weights :=
    ofold (fun rw '(i, b) =>
             let! uid := getitem (uids m) i in
             tset rw uid (b + noisy_routing_weights i))
          (enumerate batchwise_routing_weights) (zeros (n m)) in
  let real_topk := Nat.min (length (uids m)) topk_cfg in
  let! (_, routing_uids) := topk (map Finite routing_weights) real_topk in
  Returned routing_uids.

(** Lines 362-384: the score of every uid in [masked_contexts]. *)
Definition shapely (w : World) (n : nat) (responses_hidden : Hidden)
    (masked_contexts : list (nat * Hidden)) : outcome Tensor :=
  let unmasked_loss := get_target_loss w false responses_hidden in
  let! shapely_scores :=
    ofold (fun scores '(uid, ctx) =>
             let masked_loss := get_target_loss w false ctx in
             let shapely_score := unmasked_loss - masked_loss in
             tset scores uid shapely_score)
          masked_contexts (zeros n) in
  Returned (tneg shapely_scores).

(** Line 318: [[metagraph.endpoints[uid] for uid in metagraph.uids[routing_uids]]] *)
Definition lookup_endpoints (m : Metagraph) (routing_uids : list nat)
  : outcome (list string) :=
  omapM (fun idx => let! uid := getitem (uids m) idx in
                    getitem (endpoints m) uid) routing_uids.

(** [Nucleus.forward]: the loss and the per-uid scores. *)
Definition forward (gates : gmap nat Linear) (topk_cfg : nat)
    (m : Metagraph) (w : World) : outcome (Qc * Tensor) :=
  let! routing_uids := select gates topk_cfg m w in
  let! routing_endpoints := lookup_endpoints m routing_uids in
  let '(query_responses, return_ops) := forward_text w routing_endpoints in
  let responses_hidden := joining_context w return_ops query_responses in
  let target_loss := get_target_loss w true responses_hidden in
  let masked_contexts :=
    partial_contexts w return_ops routing_uids query_responses in
  let! scores := shapely w (n m) responses_hidden masked_contexts in
  Returned (target_loss, scores).

(** *** The epoch *)

Record Config := {
  epochs_until_reset : nat;      (* config.neuron.epochs_until_reset *)
  blocks_per_epoch : Z;          (* config.neuron.blocks_per_epoch *)
  n_topk_peer_weights : nat;     (* config.neuron.n_topk_peer_weights *)
  nucleus_topk : nat             (* config.nucleus.topk *)
}.

(** One evaluation of the loop test: the block [self.subtensor.block] reads
    at that moment, and the world of the step that follows if the test
    passes. *)
Record Tick := { block : Z; world : World }.

(** The loop's variables.  [moving_avg_scores] is unbound until the first
    step has assigned it. *)
Record EpochState := {
  score_history : list FloatTensor;
  moving_avg_scores : option FloatTensor
}.

Global Instance EpochState_eq_dec : EqDecision EpochState.
Proof. solve_decision. Defined.

Definition epoch_start : EpochState :=
  {| score_history := []; moving_avg_scores := None |}.

(** The loop body, lines 160-179 (the gradient step changes nothing the
    scores of this epoch are computed from: its effect on later losses is
    part of each tick's world).  Line 177 divides by the sum of the scores
    whatever it is. *)
Definition step (cfg : Config) (gates : gmap nat Linear) (m : Metagraph)
    (w : World) (st : EpochState) : outcome EpochState :=
  let! (_, scores) := forward gates (nucleus_topk cfg) m w in
  let scores := tdiv scores (tsum scores) in
  let score_history := score_history st ++ [scores] in
  let! stacked := stack score_history in
  Returned {| score_history := score_history;
              moving_avg_scores := Some (mean0 stacked) |}.

(** [while self.subtensor.block < start_block + blocks_per_epoch].  The ticks
    are what the run observes; when they end with the window still open the
    run was interrupted from outside. *)
Fixpoint stepping (cfg : Config) (gates : gmap nat Linear) (m : Metagraph)
    (limit : Z) (ticks : list Tick) (st : EpochState) : outcome EpochState :=
  match ticks with
  | [] => Raised KeyboardInterrupt
  | t :: rest =>
      if (block t <? limit)%Z then
        let! st' := step cfg gates m (world t) st in
        stepping cfg gates m limit rest st'
      else Returned st
  end.

(** Two worlds in which the peer-query results and the Scorer's outputs are
    the same: the same subset is selected, the dendrite answers alike, and
    every aggregate gets the same loss in eval mode.  The gate outputs, the
    noise sample and the training-mode loss are free to differ. *)
Definition same_observations (cfg : Config) (gates : gmap nat Linear)
    (m : Metagraph) (w1 w2 : World) : Prop :=
  select gates (nucleus_topk cfg) m w1 = select gates (nucleus_topk cfg) m w2 /\
  (forall eps, forward_text w1 eps = forward_text w2 eps) /\
  (forall rs, get_target_loss w1 false (combine w1 rs)
              = get_target_loss w2 false (combine w2 rs)).

(** The row a step appends to [score_history]: the scores of its forward
    pass divided by their sum. *)
Definition step_row (cfg : Config) (gates : gmap nat Linear) (m : Metagraph)
    (w : World) (row : FloatTensor) : Prop :=
  exists loss raw,
    forward gates (nucleus_topk cfg) m w = Returned (loss, raw) /\
    row = tdiv raw (tsum raw).

(** The loop's variables after the steps taken in the given worlds, in
    order, since the start of the epoch. *)
Inductive after_steps (cfg : Config) (gates : gmap nat Linear) (m : Metagraph)
  : list World -> EpochState -> Prop :=
| after_none : after_steps cfg gates m [] epoch_start
| after_step ws st w st' :
    after_steps cfg gates m ws st ->
    step cfg gates m w st = Returned st' ->
    after_steps cfg gates m (ws ++ [w]) st'.

(** What [run_epoch] hands to [self.subtensor.set_weights]. *)
Record WeightVector := { wv_uids : list nat; wv_weights : FloatTensor }.

Global Instance WeightVector_eq_dec : EqDecision WeightVector.
Proof. solve_decision. Defined.

Record EpochResult := {
  gates_after : gmap nat Linear;
  final_state : EpochState;
  committed : WeightVector
}.

(** [Neuron.run_epoch], lines 144-187: the setup of the epoch and its loop.
    [m] is the metagraph as synced on line 144.  The result is the gate
    table the loop has run with and the loop's variables at its end. *)
Definition run_steps (cfg : Config) (epoch : nat) (xavier : nat -> list Qc)
    (gates : gmap nat Linear) (m : Metagraph) (start_block : Z)
    (ticks : list Tick) : outcome (gmap nat Linear * EpochState) :=
  let! gates :=
    match epochs_until_reset cfg with
    | O => Raised ZeroDivisionError
    | S _ =>
        if Nat.eqb (epoch mod epochs_until_reset cfg) 0
        then reset_weights xavier gates
        else Returned gates
    end in
  let! st := stepping cfg gates m (start_block + blocks_per_epoch cfg)%Z
               ticks epoch_start in
  Returned (gates, st).

(** [Neuron.run_epoch], up to and including the call of
    [self.subtensor.set_weights] on lines 194-198.  [set_weights] is the
    method of the subtensor object the neuron was built with; the call
    passes [uids], [weights] and the neuron's wallet by keyword and no
    [netuid].  Beside its outcome the run yields the weight vectors it has
    handed to [set_weights]: none when it raises before line 194, one
    otherwise, whether or not the call goes through. *)
Definition run_epoch (cfg : Config) (epoch : nat) (xavier : nat -> list Qc)
    (set_weights : option Z -> list nat -> FloatTensor -> outcome bool)
    (gates : gmap nat Linear) (m : Metagraph) (start_block : Z)
    (ticks : list Tick) : outcome EpochResult * list WeightVector :=
  let arguments :=
    let! (gates, st) := run_steps cfg epoch xavier gates m start_block ticks in
    let! moving_avg_scores :=
      match moving_avg_scores st with
      | Some t => Returned t
      | None => Raised (UnboundLocalError "moving_avg_scores")
      end in
    let! (topk_scores, topk_uids) :=
      unbiased_topk moving_avg_scores
                    (Nat.min (n_topk_peer_weights cfg) (n m)) in
    Returned (gates, st, {| wv_uids := topk_uids;
                            wv_weights := topk_scores |}) in
  match arguments with
  | Raised e => (Raised e, [])
  | Returned (gates, st, wv) =>
      (let! _ := set_weights None (wv_uids wv) (wv_weights wv) in
       Returned {| gates_after := gates;
                   final_state := st;
                   committed := wv |},
       [wv])
  end.

(** The commits of an epoch: the weight vectors it has handed to
    [set_weights].  Whether one reaches the ledger is up to the method of
    the subtensor object, whose outcome is the outcome of the run. *)
Definition commits (run : outcome EpochResult * list WeightVector)
  : list WeightVector :=
  snd run.

End Forward.

Arguments World : clear implicits.
Arguments Tick : clear implicits.

(** *** The spec's wording of the commit and of the mean *)

Definition negative (x : Float) : Prop :=
  match x with
  | Finite v => v < 0
  | NegInf => True
  | PosInf | NaN => False
  end.


(** Every peer with a negative moving average is left out of the vector. *)
Definition negatives_excluded (moving_avg : FloatTensor) (wv : WeightVector)
  : Prop :=
  forall uid score,
    uid ∈ wv_uids wv -> moving_avg !! uid = Some score -> ~ negative score.





(** *** Notions used in the proofs *)

(** [desc a b]: [a] may stand before [b] in a decreasing order of rank. *)
Definition desc (a b : nat * Float) : Prop := rank_le (snd b) (snd a).

(** All rows have [size] entries. *)
Definition uniform {A} (size : nat) (rows : list (list A)) : Prop :=
  Forall (fun s => length s = size) rows.

(** An infinity or nan. *)
Definition nonfinite (x : Float) : Prop := forall v, x <> Finite v.

(** What a division by the sum makes of a row of scores: numbers that sum to
    1, or no number at all. *)
Definition normalized_or_nonfinite (row : FloatTensor) : Prop :=
  (exists numbers : Tensor, row = map Finite numbers /\ tsum numbers = 1) \/
  Forall nonfinite row.

(** The loop invariant: every row of the history has one entry per uid and
    is made of numbers that sum to 1 or of no number, and
    [moving_avg_scores] is bound exactly when the history is not empty, to
    the mean of the history. *)
Definition epoch_invariant (size : nat) (st : EpochState) : Prop :=
  uniform size (score_history st) /\
  Forall normalized_or_nonfinite (score_history st) /\
  moving_avg_scores st
  = match score_history st with
    | [] => None
    | _ :: _ => Some (mean0 (score_history st))
    end.




(** *** Scenario worlds *)

(** Peers answer with their own address, the aggregate is the list of the
    answers that were joined, and the loss of an aggregate is read off a
    table. *)
Definition q (a : Z) (b : positive) : Qc := Q2Qc (a # b).

Definition fresh_gate (uid : nat) : Linear :=
  {| weight := [Qc_of_Z (Z.of_nat uid)]; bias := 0 |}.

Definition first_weight (g : Linear) : Qc := default 0 (head (weight g)).

Definition table_world (shift : Qc) (codes : list ReturnCode)
    (losses : list (list string * Qc)) : World string (list string) :=
  {| route := first_weight;
     noise := fun _ => shift;
     forward_text := fun eps => (eps, take (length eps) codes);
     combine := fun rs => rs;
     get_target_loss := fun training h =>
       (if training then shift else 0)
       + default 0 (snd <$> (List.find (fun e => bool_decide (fst e = h)) losses)) |}.

Definition three_peers : Metagraph :=
  {| n := 3; uids := [0; 1; 2]%nat; endpoints := ["p0"; "p1"; "p2"] |}.

Definition no_peers : Metagraph :=
  {| n := 0; uids := []; endpoints := [] |}.

(** Scenario B: peers 1 and 2 are queried; U(J) = 0.5, U(J without 1) = 0.6,
    U(J without 2) = 0.4. *)
Definition scenario_B_losses : list (list string * Qc) :=
  [(["p2"; "p1"], q 1 2); (["p2"], q 3 5); (["p1"], q 2 5)].

Definition scenario_B : World string (list string) :=
  table_world 0 [Success; Success] scenario_B_losses.


(** All three peers are queried; leaving out peer 1 lowers the loss, so its
    score is negative: raw scores 3, -1 and 2. *)
Definition harmful_losses : list (list string * Qc) :=
  [(["p2"; "p1"; "p0"], q 1 1); (["p2"; "p1"], q 4 1);
   (["p2"; "p0"], q 0 1); (["p1"; "p0"], q 3 1)].

Definition harmful_peer : World string (list string) :=
  table_world 0 [Success; Success; Success] harmful_losses.

(** The same peers and losses under another noise sample and another
    training loss. *)
Definition harmful_peer_noisy : World string (list string) :=
  table_world (q 7 1) [Success; Success; Success] harmful_losses.

(** Scenario A: peers 1 and 2 answer, peer 0 times out. *)
Definition scenario_A : World string (list string) :=
  table_world 0 [Success; Success; Timeout]
    [(["p2"; "p1"], q 1 1); (["p1"], q 2 1); (["p2"], q 4 1)].

Definition config (topk_peer_weights routing_topk : nat) : Config :=
  {| epochs_until_reset := 10; blocks_per_epoch := 2;
     n_topk_peer_weights := topk_peer_weights; nucleus_topk := routing_topk |}.

(** One step, then the window closes. *)
Definition one_step (w : World string (list string))
  : list (Tick string (list string)) :=
  [ {| block := 100; world := w |}; {| block := 102; world := w |} ].

(** A subtensor object whose [set_weights] takes the call as it comes. *)
Definition lenient_subtensor (netuid : option Z) (uids : list nat)
    (weights : FloatTensor) : outcome bool :=
  Returned true.

(** The repository's own [Subtensor], over an extrinsic that always
    succeeds. *)
Definition repository_subtensor
  : option Z -> list nat -> FloatTensor -> outcome bool :=
  Subtensor.set_weights (fun _ _ _ _ _ _ _ _ => Returned true) 0 "validator".

(** The epoch in which the harmful peer is met: no reset (epoch 1), one step,
    and [topk_peer_weights] weights to set. *)
Abbreviation harmful_epoch set_weights topk_peer_weights :=
  (run_epoch (config topk_peer_weights 3) 1 (fun _ => []) set_weights
             (init_gates fresh_gate) three_peers 100 (one_step harmful_peer)).

(** The loop's variables at the end of [run_steps]. *)
Definition loop_end (steps : outcome (gmap nat Linear * EpochState))
  : outcome EpochState :=
  let! (_, st) := steps in Returned st.

(** What that epoch computes: the moving average after its one step, and
    the vectors it hands over with three and with two weights to set. *)
Definition harmful_average : FloatTensor :=
  [Finite (q 3 4); Finite (q (-1) 4); Finite (q 1 2)].

Definition harmful_vector_all : WeightVector :=
  {| wv_uids := [0; 2; 1]%nat;
     wv_weights := [Finite (q 3 4); Finite (q 1 2); Finite (q (-1) 4)] |}.


(** A network with one uid more than the gate table holds. *)
Definition oversized_network : Metagraph :=
  {| n := 2001; uids := seq 0 2001; endpoints := replicate 2001 "p" |}.

End Validator.

(** ** More substrates for the scenarios *)

Module SubtensorScenarios.
Import Subtensor.

(** A node that drops the first request and answers from then on. *)
Definition flaky_once : SubstrateInterface :=
  {| query := fun log _ _ _ _ =>
       match log with
       | [] => Raised (TransportError "timeout")
       | _ :: _ => Returned "0x2a"
       end;
     get_block_hash := fun _ _ => Returned "0xabc";
     get_block_number := fun _ => Returned 100;
     compose_call := fun _ c => Returned c;
     create_signed_extrinsic := fun _ c k p =>
       Returned {| ext_call := c; ext_keypair := k; ext_period := p |};
     submit_extrinsic := fun _ _ _ _ =>
       Returned {| is_success := true; error_message := None |} |}.

End SubtensorScenarios.

(** ** More worlds for the scenarios *)

Module ValidatorScenarios.
Import Validator.
Local Open Scope Qc_scope.

(** Every queried peer times out. *)
Definition all_timeout : World string (list string) :=
  table_world 0 [Timeout; Timeout; Timeout] [].


(** A metagraph that lists uid 5 although it counts only three neurons. *)
Definition misnumbered : Metagraph :=
  {| n := 3; uids := [0; 1; 5]%nat; endpoints := ["p0"; "p1"; "p2"] |}.

(** A metagraph with a single neuron. *)
Definition lone_peer : Metagraph :=
  {| n := 1; uids := [0]%nat; endpoints := ["p0"] |}.

End ValidatorScenarios.

(** * Properties of the chain client *)

Section SubtensorProperties.
Import Subtensor.

Lemma slept_app (l1 l2 : Log) : slept (l1 ++ l2) = slept l1 ++ slept l2.
Proof. unfold slept. apply flat_map_app. Qed.

Lemma submissions_app (l1 l2 : Log) :
  submissions (l1 ++ l2) = (submissions l1 + submissions l2)%nat.
Proof. unfold submissions. rewrite filter_app, length_app. reflexivity. Qed.

(** An operation that fails at each of its three runs is run exactly three
    times, with sleeps of 2 and then 4 seconds in between, and the third
    failure is what the caller sees. *)
Lemma retry_three_failures {A} (f : M A) (log0 : Log) e1 l1 e2 l2 e3 l3 :
  f log0 = (Raised e1, l1) ->
  f (l1 ++ [ESleep 2]) = (Raised e2, l2) ->
  f (l2 ++ [ESleep 4]) = (Raised e3, l3) ->
  retry substrate_policy f log0 = (Raised e3, l3).
Proof.
  intros H1 H2 H3. unfold retry, substrate_policy; cbn.
  rewrite H1. unfold bind, sleep; cbn.
  rewrite H2. cbn. change (Z.min (2 * 2) 4) with 4.
  rewrite H3. reflexivity.
Qed.

(** An attempt that returns ends the loop at once: no sleep, no further run. *)
Lemma retry_first_success {A} (f : M A) (log0 : Log) a l1 :
  f log0 = (Returned a, l1) ->
  retry substrate_policy f log0 = (Returned (Some a), l1).
Proof. intros H. unfold retry, substrate_policy; cbn. rewrite H. reflexivity. Qed.

(** Under the policy's backoff 2 and cap 4, the delays slept between the
    attempts never decrease and never exceed the cap, however many attempts
    are allowed. *)
Lemma retry_loop_delays {A} (f : M A)
    (Hquiet : forall log r l, f log = (r, l) -> slept l = slept log)
    (n : nat) :
  forall (d : Z) (log0 : Log) r log1,
    0 <= d <= 4 ->
    retry_loop f 2 4 n d log0 = (r, log1) ->
    exists ds, slept log1 = slept log0 ++ ds /\
               Forall (fun x => d <= x <= 4) ds /\
               Sorted Z.le ds /\
               (length ds <= pred n)%nat.
Proof.
  induction n as [|n IH]; intros d log0 r log1 Hd Hrun.
  - cbn in Hrun. inversion Hrun; subst. exists []. rewrite app_nil_r.
    repeat split; auto.
  - cbn in Hrun. destruct (f log0) as [[a|e] l] eqn:Hf.
    + inversion Hrun; subst. exists []. rewrite app_nil_r.
      rewrite (Hquiet _ _ _ Hf). repeat split; auto. cbn; lia.
    + destruct n as [|n'].
      * inversion Hrun; subst. exists []. rewrite app_nil_r.
        rewrite (Hquiet _ _ _ Hf). repeat split; auto.
      * unfold bind, sleep in Hrun.
        apply IH in Hrun; [|lia].
        destruct Hrun as (ds & Hs & Hall & Hsorted & Hlen).
        exists (d :: ds). rewrite Hs, slept_app, (Hquiet _ _ _ Hf).
        cbn. rewrite <- app_assoc. cbn. repeat split.
        -- constructor; [lia|].
           eapply Forall_impl; [|exact Hall]. cbn; intros; lia.
        -- constructor; [exact Hsorted|].
           destruct ds as [|x ds']; constructor.
           inversion Hall; subst. lia.
        -- cbn in *. lia.
Qed.

Lemma offline_is_down : transport_down offline_substrate "connection reset".
Proof. repeat split. Qed.

(** C5. Every retry-wrapped chain query ([query_subtensor], [query_module],
    [get_current_block]) whose transport fails transiently at every attempt
    makes exactly three attempts, sleeping 2 and then 4 seconds between them
    (base delay 2, multiplier 2, cap 4: the delays do not decrease), and only
    then surfaces the transport failure to its caller. *)
Theorem retry_bound_on_transport_failure
    (s : SubstrateInterface) (msg : string) (Hdown : transport_down s msg)
    (module name : string) (block : option Z) (params : list string)
    (log0 : Log) :
  let attempt m := first_rpc block (EQuery m name params) in
  query_subtensor s name block params log0
    = (Raised (TransportError msg),
       log0 ++ [attempt "SubtensorModule"; ESleep 2;
                attempt "SubtensorModule"; ESleep 4;
                attempt "SubtensorModule"]) /\
  query_module s module name block params log0
    = (Raised (TransportError msg),
       log0 ++ [attempt module; ESleep 2; attempt module; ESleep 4;
                attempt module]) /\
  get_current_block s log0
    = (Raised (TransportError msg),
       log0 ++ [EGetBlockNumber; ESleep 2; EGetBlockNumber; ESleep 4;
                EGetBlockNumber]) /\
  Sorted Z.le [delay substrate_policy;
               Z.min (delay substrate_policy * backoff substrate_policy)
                     (max_delay substrate_policy)].
Proof.
  destruct Hdown as (Hq & Hh & Hn). cbn zeta.
  assert (Hattempt : forall m log,
    (do bh <- block_hash_of s block;
     rpc (EQuery m name params bh)
         (fun l => query s l m name params bh)) log
    = (Raised (TransportError msg),
       log ++ [first_rpc block (EQuery m name params)])).
  { intros m log. destruct block as [b|]; unfold bind, rpc; cbn.
    - unfold bind, rpc. rewrite Hh. reflexivity.
    - rewrite Hq. reflexivity. }
  repeat split.
  - unfold query_subtensor.
    erewrite retry_three_failures by (rewrite Hattempt; reflexivity).
    rewrite <- !app_assoc. reflexivity.
  - unfold query_module.
    erewrite retry_three_failures by (rewrite Hattempt; reflexivity).
    rewrite <- !app_assoc. reflexivity.
  - unfold get_current_block.
    erewrite retry_three_failures by (unfold rpc; rewrite Hn; reflexivity).
    rewrite <- !app_assoc. reflexivity.
  - repeat constructor. cbn. lia.
Qed.

Lemma retry_bound_on_transport_failure_witness :
  transport_down offline_substrate "connection reset" /\
  query_subtensor offline_substrate "Uids" (Some 7) ["1"] []
    = (Raised (TransportError "connection reset"),
       [EGetBlockHash 7; ESleep 2; EGetBlockHash 7; ESleep 4; EGetBlockHash 7]).
Proof.
  split; [exact offline_is_down|].
  exact (proj1 (retry_bound_on_transport_failure offline_substrate
                  "connection reset" offline_is_down
                  "Senate" "Uids" (Some 7) ["1"] [])).
Defined.

(** What one call of [_do_set_weights] does once the transport takes the
    transaction: three RPCs, the last of them the only submission. *)
Lemma do_set_weights_run
    (s : SubstrateInterface) (hotkey : string) (uids vals : list Z)
    (netuid version_key : Z) (wi wf : bool) (log : Log)
    (x : Extrinsic) (receipt : ExtrinsicReceipt) :
  handed_to_transport s log hotkey uids vals netuid version_key wi wf
    x receipt ->
  exists call_params call,
    _do_set_weights s hotkey uids vals netuid version_key wi wf log
    = (Returned (if negb wf && negb wi then (true, None)
                 else if is_success receipt then (true, None)
                 else (false, error_message receipt)),
       log ++ [EComposeCall call_params;
               ECreateSignedExtrinsic call hotkey 100;
               ESubmitExtrinsic x wi wf]).
Proof.
  intros (call & Hc & Hx & Hr). eexists _, call.
  unfold _do_set_weights, bind, rpc. rewrite Hc, Hx.
  rewrite <- app_assoc. rewrite Hr.
  rewrite <- !app_assoc.
  destruct (negb wf && negb wi); [reflexivity|].
  destruct (is_success receipt); reflexivity.
Qed.


Lemma rejecting_hands_over reason log hotkey uids vals netuid version_key wi wf :
  handed_to_transport (rejecting_substrate reason) log hotkey uids vals
    netuid version_key wi wf
    {| ext_call := {| call_module := "SubtensorModule";
                      call_function := "set_weights";
                      dests := uids; weights := vals;
                      netuid := netuid; version_key := version_key |};
       ext_keypair := hotkey; ext_period := 100 |}
    {| is_success := false; error_message := Some reason |}.
Proof. eexists. repeat split. Qed.


(** C7. When at least one wait flag is true and the ledger rejects the
    weight-commit transaction, [_do_set_weights] returns success = false
    together with the ledger's rejection message, after exactly one
    submission: nothing is retried. *)
Theorem rejection_surfaced_without_retry
    (s : SubstrateInterface) (hotkey : string) (uids vals : list Z)
    (netuid version_key : Z) (wait_for_inclusion wait_for_finalization : bool)
    (log0 : Log) (x : Extrinsic) (receipt : ExtrinsicReceipt)
    (Hwait : wait_for_inclusion || wait_for_finalization = true)
    (Hsent : handed_to_transport s log0 hotkey uids vals netuid version_key
               wait_for_inclusion wait_for_finalization x receipt)
    (Hrejected : is_success receipt = false) :
  let run := _do_set_weights s hotkey uids vals netuid version_key
               wait_for_inclusion wait_for_finalization log0 in
  fst run = Returned (false, error_message receipt) /\
  submissions (snd run) = S (submissions log0) /\
  slept (snd run) = slept log0.
Proof.
  cbn zeta.
  destruct (do_set_weights_run _ _ _ _ _ _ _ _ _ _ _ Hsent) as (cp & c & ->).
  assert (Hflags : negb wait_for_finalization && negb wait_for_inclusion = false)
    by (destruct wait_for_inclusion, wait_for_finalization; auto; discriminate).
  rewrite Hflags, Hrejected. unfold fst, snd. repeat split.
  - rewrite submissions_app. cbn. lia.
  - rewrite slept_app. cbn. apply app_nil_r.
Qed.

Lemma rejection_surfaced_without_retry_witness :
  let run := _do_set_weights (rejecting_substrate "InsufficientStake") "hotkey"
               [0; 1] [65535; 13107] 1 0 true false [] in
  fst run = Returned (false, Some "InsufficientStake") /\
  submissions (snd run) = 1%nat /\
  slept (snd run) = [].
Proof.
  exact (rejection_surfaced_without_retry
           (rejecting_substrate "InsufficientStake") "hotkey"
           [0; 1] [65535; 13107] 1 0 true false [] _ _ eq_refl
           (rejecting_hands_over _ _ _ _ _ _ _ _ _) eq_refl).
Defined.

End SubtensorProperties.

(** * Properties of the tensor primitives *)

Section TensorProperties.
Import Validator.
Local Open Scope Qc_scope.

Lemma obind_returned {A B} (o : outcome A) (k : A -> outcome B) b :
  obind o k = Returned b -> exists a, o = Returned a /\ k a = Returned b.
Proof. destruct o as [a|e]; cbn; [eauto | discriminate]. Qed.

Lemma tsum_nil : tsum [] = 0.
Proof. reflexivity. Qed.

Lemma tsum_cons (x : Qc) (a : Tensor) : tsum (x :: a) = x + tsum a.
Proof. reflexivity. Qed.




Lemma tsum_scale (a : Tensor) (c : Qc) :
  tsum (map (fun x => x / c) a) = tsum a / c.
Proof.
  induction a as [|x a IH].
  - cbn [map]. rewrite tsum_nil. unfold Qcdiv. now rewrite Qcmult_0_l.
  - cbn [map]. rewrite !tsum_cons, IH. unfold Qcdiv.
    now rewrite Qcmult_plus_distr_l.
Qed.






Lemma Qcdiv_self (c : Qc) : c <> 0 -> c / c = 1.
Proof. intros H. unfold Qcdiv. now apply Qcmult_inv_r. Qed.

(** *** Float arithmetic *)









Lemma fdiv_nonzero (x c : Qc) : c <> 0 -> fdiv x c = Finite (x / c).
Proof. intros Hc. unfold fdiv. now rewrite decide_False by exact Hc. Qed.

Lemma fdiv_zero (x : Qc) : nonfinite (fdiv x 0).
Proof.
  intros v. unfold fdiv. rewrite decide_True by reflexivity.
  repeat case_decide; discriminate.
Qed.

Lemma tdiv_nonzero (t : Tensor) (c : Qc) :
  c <> 0 -> tdiv t c = map Finite (map (fun x => x / c) t).
Proof.
  intros Hc. unfold tdiv. rewrite map_map. apply map_ext.
  intros x. now apply fdiv_nonzero.
Qed.

Lemma tdiv_zero (t : Tensor) : Forall nonfinite (tdiv t 0).
Proof. unfold tdiv. apply Forall_map, Forall_true. intros x. apply fdiv_zero. Qed.

Lemma length_tdiv (t : Tensor) (c : Qc) : length (tdiv t c) = length t.
Proof. apply length_map. Qed.

Lemma length_tadd (a b : FloatTensor) :
  length a = length b -> length (tadd a b) = length a.
Proof. intros H. unfold tadd. rewrite length_zip_with. lia. Qed.



(** *** The ranking order *)

Lemma rank_le_trans (a b c : Float) : rank_le a b -> rank_le b c -> rank_le a c.
Proof.
  destruct a as [x| | |], b as [y| | |], c as [z| | |]; cbn; try tauto.
  apply Qcle_trans.
Qed.

Lemma rank_le_total (a b : Float) : rank_le a b \/ rank_le b a.
Proof.
  destruct a as [x| | |], b as [y| | |]; cbn; try tauto.
  destruct (Qclt_le_dec x y) as [H|H]; [left; now apply Qclt_le_weak|now right].
Qed.

End TensorProperties.

(** * Properties of top-k selection *)

Section TopkProperties.
Import Validator.
Local Open Scope Qc_scope.

Lemma insert_desc_perm x l : insert_desc x l ≡ₚ x :: l.
Proof.
  induction l as [|y l IH]; cbn; [reflexivity|].
  case_bool_decide; [reflexivity|].
  rewrite IH. apply perm_swap.
Qed.

Lemma sort_desc_perm l : sort_desc l ≡ₚ l.
Proof.
  induction l as [|x l IH]; cbn; [reflexivity|].
  rewrite insert_desc_perm. now rewrite IH.
Qed.

Lemma insert_desc_sorted x l :
  StronglySorted desc l -> StronglySorted desc (insert_desc x l).
Proof.
  induction 1 as [|y l Hsorted IH Hall]; cbn.
  - repeat constructor.
  - case_bool_decide as Hle.
    + constructor; [now constructor|].
      constructor; [exact Hle|].
      eapply List.Forall_impl; [|exact Hall].
      intros z Hz. unfold desc in *. now apply rank_le_trans with (snd y).
    + constructor; [exact IH|].
      rewrite insert_desc_perm. constructor; [|exact Hall].
      unfold desc. now destruct (rank_le_total (snd x) (snd y)).
Qed.

Lemma sort_desc_sorted l : StronglySorted desc (sort_desc l).
Proof.
  induction l as [|x l IH]; cbn; [constructor|].
  now apply insert_desc_sorted.
Qed.

Lemma sorted_app_order {A} (R : A -> A -> Prop) (l1 l2 : list A) :
  StronglySorted R (l1 ++ l2) ->
  forall a b, a ∈ l1 -> b ∈ l2 -> R a b.
Proof.
  induction l1 as [|x l1 IH]; intros Hs a b Ha Hb.
  - inversion Ha.
  - cbn in Hs. inversion Hs as [|? ? Hs' Hall]; subst.
    apply elem_of_cons in Ha as [->|Ha].
    + rewrite Forall_forall in Hall. apply Hall.
      apply list_elem_of_In, elem_of_app. now right.
    + now apply IH.
Qed.

Lemma enumerate_fst {A} (l : list A) : (enumerate l).*1 = seq 0 (length l).
Proof. unfold enumerate. apply fst_zip. now rewrite length_seq. Qed.

Lemma enumerate_snd {A} (l : list A) : (enumerate l).*2 = l.
Proof. unfold enumerate. apply snd_zip. now rewrite length_seq. Qed.

Lemma length_enumerate {A} (l : list A) : length (enumerate l) = length l.
Proof. rewrite <- (length_fmap fst), enumerate_fst. apply length_seq. Qed.

Lemma lookup_enumerate {A} (l : list A) i p :
  enumerate l !! i = Some p <-> p.1 = i /\ l !! i = Some p.2.
Proof.
  unfold enumerate. destruct p as [j x]. cbn.
  rewrite lookup_zip_with_Some. split.
  - intros (j' & x' & Heq & Hj & Hx). inversion Heq; subst.
    apply lookup_seq in Hj as [-> _]. auto.
  - intros [-> Hx]. exists i, x. repeat split; auto.
    apply lookup_seq. split; [reflexivity|]. now apply lookup_lt_Some in Hx.
Qed.

Lemma elem_of_enumerate {A} (l : list A) i x :
  (i, x) ∈ enumerate l <-> l !! i = Some x.
Proof.
  rewrite list_elem_of_lookup. split.
  - intros [j Hj]. apply lookup_enumerate in Hj as [Hi Hx]. cbn in *.
    now subst.
  - intros Hx. exists i. now apply lookup_enumerate.
Qed.

(** What a returned [topk] is made of: the first [k] entries of the sorted
    enumeration, the rest being everything that was not selected. *)
Lemma topk_returned (t : FloatTensor) k vals idxs :
  topk t k = Returned (vals, idxs) ->
  exists top rest,
    sort_desc (enumerate t) = top ++ rest /\
    length top = k /\ vals = top.*2 /\ idxs = top.*1.
Proof.
  unfold topk. case_decide as Hk; [|discriminate].
  intros [= <- <-].
  exists (take k (sort_desc (enumerate t))), (drop k (sort_desc (enumerate t))).
  rewrite take_drop. repeat split.
  apply length_take_le.
  rewrite (Permutation_length (sort_desc_perm _)), length_enumerate. exact Hk.
Qed.

Lemma topk_lengths (t : FloatTensor) k vals idxs :
  topk t k = Returned (vals, idxs) -> length vals = k /\ length idxs = k.
Proof.
  intros (top & rest & _ & Hlen & -> & ->)%topk_returned.
  now rewrite !length_fmap.
Qed.

Lemma topk_NoDup (t : FloatTensor) k vals idxs :
  topk t k = Returned (vals, idxs) -> NoDup idxs.
Proof.
  intros (top & rest & Hsort & _ & _ & ->)%topk_returned.
  assert (Hnd : NoDup ((top ++ rest).*1)).
  { rewrite <- Hsort, sort_desc_perm, enumerate_fst. apply NoDup_seq. }
  rewrite fmap_app in Hnd.
  now apply list.NoDup_app in Hnd as [? _].
Qed.

(** Position by position, a selected index carries the score it has in the
    tensor. *)
Lemma topk_lookup (t : FloatTensor) k vals idxs i idx :
  topk t k = Returned (vals, idxs) ->
  idxs !! i = Some idx ->
  exists v, vals !! i = Some v /\ t !! idx = Some v.
Proof.
  intros (top & rest & Hsort & _ & -> & ->)%topk_returned Hi.
  rewrite list_lookup_fmap in Hi.
  destruct (top !! i) as [[j v]|] eqn:Htop; [|discriminate].
  cbn in Hi. injection Hi as ->.
  exists v. split.
  - now rewrite list_lookup_fmap, Htop.
  - apply elem_of_enumerate. rewrite <- sort_desc_perm, Hsort.
    apply elem_of_app. left. eapply list_elem_of_lookup_2. exact Htop.
Qed.

Lemma topk_in_range (t : FloatTensor) k vals idxs idx :
  topk t k = Returned (vals, idxs) -> idx ∈ idxs -> (idx < length t)%nat.
Proof.
  intros Htop [i Hi]%list_elem_of_lookup.
  destruct (topk_lookup _ _ _ _ _ _ Htop Hi) as (v & _ & Hv).
  now apply lookup_lt_Some in Hv.
Qed.

(** Nothing that was left out ranks above anything selected. *)
Lemma topk_dominates (t : FloatTensor) k vals idxs j score v :
  topk t k = Returned (vals, idxs) ->
  t !! j = Some score -> j ∉ idxs -> v ∈ vals -> rank_le score v.
Proof.
  intros (top & rest & Hsort & _ & -> & ->)%topk_returned Hj Hout Hv.
  apply list_elem_of_fmap in Hv as ([i v'] & -> & Hv).
  assert (Hin : (j, score) ∈ top ++ rest).
  { rewrite <- Hsort, sort_desc_perm. now apply elem_of_enumerate. }
  apply elem_of_app in Hin as [Hin|Hin].
  - exfalso. apply Hout. apply list_elem_of_fmap. now exists (j, score).
  - pose proof (sort_desc_sorted (enumerate t)) as Hs. rewrite Hsort in Hs.
    exact (sorted_app_order desc top rest Hs _ _ Hv Hin).
Qed.



(** With [k] the size of the tensor, every index is selected. *)
Lemma topk_all (t : FloatTensor) vals idxs j :
  topk t (length t) = Returned (vals, idxs) -> (j < length t)%nat -> j ∈ idxs.
Proof.
  intros (top & rest & Hsort & Hlen & _ & ->)%topk_returned Hj.
  assert (Hrest : rest = []).
  { apply length_zero_iff_nil.
    pose proof (Permutation_length (sort_desc_perm (enumerate t))) as Hp.
    rewrite Hsort, length_app, length_enumerate in Hp. lia. }
  subst rest. rewrite app_nil_r in Hsort.
  rewrite <- Hsort, sort_desc_perm, enumerate_fst.
  apply elem_of_seq. lia.
Qed.

End TopkProperties.

(** * Properties of the mean over the history *)

Section MeanProperties.
Import Validator.
Local Open Scope Qc_scope.

(** *** Over rows of numbers *)











(** *** Over rows of floats *)

Lemma foldl_tadd_length (rest : list FloatTensor) : forall r : FloatTensor,
  uniform (length r) rest -> length (foldl tadd r rest) = length r.
Proof.
  induction rest as [|s rest IH]; intros r Hu; [reflexivity|].
  inversion Hu as [|? ? Hs Hrest]; subst. cbn [foldl].
  rewrite IH; rewrite length_tadd by congruence; auto.
Qed.


Lemma mean0_length (rows : list FloatTensor) n :
  rows <> [] -> uniform n rows -> length (mean0 rows) = n.
Proof.
  destruct rows as [|r rest]; [congruence|]. intros _ Hu.
  inversion Hu as [|? ? Hr Hrest]; subst.
  unfold mean0, column_sums. rewrite length_map.
  now apply foldl_tadd_length.
Qed.







(** What spreads through sums and divisions by a count spreads through the
    mean: a row all of whose entries have the property leaves it on every
    entry of the mean. *)
Lemma foldl_tadd_absorbs (P : Float -> Prop) :
  (forall a b, P a -> P (fadd a b)) ->
  (forall a b, P b -> P (fadd a b)) ->
  forall (rest : list FloatTensor) (r : FloatTensor),
  uniform (length r) rest ->
  Forall P r \/ Exists (Forall P) rest ->
  Forall P (foldl tadd r rest).
Proof.
  intros Hl Hr. induction rest as [|s rest IH]; intros r Hu Hbad.
  - destruct Hbad as [Hbad|Hex]; [exact Hbad|inversion Hex].
  - pose proof (Forall_inv Hu) as Hs. pose proof (Forall_inv_tail Hu) as Hrest.
    cbn beta in Hs. cbn [foldl].
    apply IH; [unfold uniform; now rewrite length_tadd by congruence|].
    destruct Hbad as [Hbad|Hex].
    + left. apply list.Forall_lookup. intros j v Hv.
      unfold tadd in Hv. apply lookup_zip_with_Some in Hv as (x & y & -> & Hx & _).
      apply Hl. eapply list.Forall_lookup in Hbad; eauto.
    + apply Exists_cons in Hex as [Hs'|Hex]; [left|now right].
      apply list.Forall_lookup. intros j v Hv.
      unfold tadd in Hv. apply lookup_zip_with_Some in Hv as (x & y & -> & _ & Hy).
      apply Hr. eapply list.Forall_lookup in Hs'; eauto.
Qed.

Lemma mean0_absorbs (P : Float -> Prop) (rows : list FloatTensor) n :
  (forall a b, P a -> P (fadd a b)) ->
  (forall a b, P b -> P (fadd a b)) ->
  (forall a k, P a -> P (fdiv_count a k)) ->
  uniform n rows -> Exists (Forall P) rows ->
  Forall P (mean0 rows).
Proof.
  intros Hl Hr Hd Hu Hex.
  destruct rows as [|r rest]; [inversion Hex|].
  pose proof (Forall_inv Hu) as Hlen. pose proof (Forall_inv_tail Hu) as Hrest.
  cbn beta in Hlen. subst n.
  unfold mean0, column_sums. apply Forall_map.
  eapply List.Forall_impl;
    [|apply (foldl_tadd_absorbs P Hl Hr);
      [exact Hrest|apply Exists_cons in Hex as [?|?]; [now left|now right]]].
  intros a Ha. now apply Hd.
Qed.


End MeanProperties.

(** * Properties of the forward pass *)

Section ForwardProperties.
Import Validator.
Local Open Scope Qc_scope.

Context {Response Hidden : Type}.
Implicit Types (w : World Response Hidden) (m : Metagraph).

Lemma ofold_invariant {A B} (P : B -> Prop) (body : B -> A -> outcome B)
    (l : list A) :
  (forall acc x acc', body acc x = Returned acc' -> P acc -> P acc') ->
  forall acc res, P acc -> ofold body l acc = Returned res -> P res.
Proof.
  intros Hbody. induction l as [|x l IH]; intros acc res Hacc Hrun; cbn in Hrun.
  - now injection Hrun as <-.
  - apply obind_returned in Hrun as (acc' & Hx & Hrest). eauto.
Qed.

Lemma tset_returned (t : Tensor) i v t' :
  tset t i v = Returned t' -> (i < length t)%nat /\ t' = <[i := v]> t.
Proof. unfold tset. case_decide; [|discriminate]. now intros [= <-]. Qed.

Lemma getitem_returned {A} (l : list A) i a :
  getitem l i = Returned a -> l !! i = Some a.
Proof. unfold getitem. destruct (l !! i); [|discriminate]. now intros [= ->]. Qed.

(** A loop of indexed assignments into a tensor: the length is kept, entries
    that are never assigned keep their value, and when no index is assigned
    twice each assigned entry holds its value. *)
Lemma ofold_tset_spec {V} (f : V -> Qc) (l : list (nat * V)) :
  forall (acc res : Tensor),
    ofold (fun sc '(uid, v) => tset sc uid (f v)) l acc = Returned res ->
    length res = length acc /\
    (forall j, j ∉ l.*1 -> res !! j = acc !! j) /\
    (NoDup l.*1 -> forall uid v, (uid, v) ∈ l -> res !! uid = Some (f v)).
Proof.
  induction l as [|[k x] l IH]; intros acc res Hrun; cbn in Hrun.
  - injection Hrun as <-. repeat split; auto. intros _ uid v Hin. inversion Hin.
  - apply obind_returned in Hrun as (acc' & Hset & Hrest).
    apply tset_returned in Hset as [Hk ->].
    destruct (IH _ _ Hrest) as (Hlen & Hout & Hin).
    rewrite length_insert in Hlen. repeat split; [exact Hlen| |].
    + intros j Hj. cbn in Hj. rewrite not_elem_of_cons in Hj.
      destruct Hj as [Hne Hj]. rewrite (Hout j Hj).
      now apply list_lookup_insert_ne.
    + intros Hnd uid v Huv. cbn in Hnd. apply list.NoDup_cons in Hnd as [Hfresh Hnd].
      apply elem_of_cons in Huv as [[= -> ->]|Huv].
      * rewrite (Hout k Hfresh). now apply list_lookup_insert_eq.
      * now apply Hin.
Qed.

(** [d[k] = v] on a dict that has no key [k] appends the item. *)
Lemma dict_set_fresh {V} (d : list (nat * V)) k v :
  k ∉ d.*1 -> dict_set d k v = d ++ [(k, v)].
Proof.
  induction d as [|[k' v'] d IH]; intros Hk; cbn; [reflexivity|].
  cbn in Hk. rewrite not_elem_of_cons in Hk. destruct Hk as [Hne Hk].
  destruct (Nat.eqb_spec k' k) as [->|_]; [congruence|].
  now rewrite IH.
Qed.

Lemma dict_fill_distinct {V} (g : nat -> V) (l : list (nat * nat)) :
  forall d : list (nat * V),
    NoDup (d.*1 ++ l.*2) ->
    foldl (fun d '(i, uid) => dict_set d uid (g i)) d l
    = d ++ map (fun '(i, uid) => (uid, g i)) l.
Proof.
  induction l as [|[i uid] l IH]; intros d Hnd; cbn.
  - now rewrite app_nil_r.
  - cbn in Hnd.
    assert (Hfresh : uid ∉ d.*1).
    { apply list.NoDup_app in Hnd as (_ & Hdisj & _).
      intros Hin. apply (Hdisj uid Hin). apply elem_of_cons. now left. }
    rewrite dict_set_fresh by exact Hfresh.
    rewrite IH.
    + now rewrite <- app_assoc.
    + rewrite fmap_app. cbn. rewrite <- app_assoc. exact Hnd.
Qed.

(** With distinct routing uids the dict of masked contexts has one item per
    queried peer, in routing order: the peer at position [i] with the
    aggregate that leaves position [i] out. *)
Lemma partial_contexts_distinct w ops routing_uids responses :
  NoDup routing_uids ->
  partial_contexts w ops routing_uids responses
  = map (fun '(i, uid) =>
           (uid, combine w (joined_responses (Some i) ops responses)))
        (enumerate routing_uids).
Proof.
  intros Hnd. unfold partial_contexts.
  rewrite (dict_fill_distinct
             (fun i => combine w (joined_responses (Some i) ops responses))).
  - reflexivity.
  - cbn. now rewrite enumerate_snd.
Qed.

Lemma partial_contexts_keys w ops routing_uids responses :
  NoDup routing_uids ->
  (partial_contexts w ops routing_uids responses).*1 = routing_uids.
Proof.
  intros Hnd. rewrite partial_contexts_distinct by exact Hnd.
  rewrite <- (enumerate_snd routing_uids) at 2.
  rewrite <- list_fmap_compose. apply list_fmap_ext.
  now intros _ [i uid] _.
Qed.

(** What a returned [select] tells: the metagraph is not empty, the routing
    uids are distinct positions of the routing-weight tensor, and there are
    [real_topk] of them. *)
Lemma select_returned gates topk_cfg m w routing_uids :
  select gates topk_cfg m w = Returned routing_uids ->
  uids m <> [] /\
  (0 < n m)%nat /\
  NoDup routing_uids /\
  (forall p, p ∈ routing_uids -> (p < n m)%nat) /\
  length routing_uids = Nat.min (length (uids m)) topk_cfg.
Proof.
  unfold select. intros Hrun.
  apply obind_returned in Hrun as (gate_out & Hgates & Hrun).
  apply obind_returned in Hrun as (bw & Hcat & Hrun).
  apply obind_returned in Hrun as (noisy & _ & Hrun).
  apply obind_returned in Hrun as (rw & Hfill & Hrun).
  apply obind_returned in Hrun as ([vals idxs] & Htop & Hret).
  injection Hret as <-.
  assert (Hlen : length rw = n m).
  { eapply (ofold_invariant (fun t : Tensor => length t = n m)) in Hfill;
      [exact Hfill| |apply length_replicate].
    intros acc [i b] acc' Hbody Hacc. cbn in Hbody.
    apply obind_returned in Hbody as (uid & _ & Hset).
    apply tset_returned in Hset as [_ ->]. now rewrite length_insert. }
  assert (Hne : gate_out <> []).
  { destruct gate_out; [discriminate|congruence]. }
  assert (Huids : uids m <> []).
  { intros Hnil. rewrite Hnil in Hgates. cbn in Hgates. congruence. }
  assert (Hbw : bw = gate_out).
  { destruct gate_out; [discriminate|]. cbn in Hcat. congruence. }
  subst bw.
  repeat split.
  - exact Huids.
  - destruct gate_out as [|b gate_out]; [congruence|].
    unfold enumerate in Hfill. cbn in Hfill.
    apply obind_returned in Hfill as (acc' & Hbody & _).
    apply obind_returned in Hbody as (uid & _ & Hset).
    apply tset_returned in Hset as [Hlt _].
    unfold zeros in Hlt. rewrite length_replicate in Hlt. lia.
  - eapply topk_NoDup. exact Htop.
  - intros p Hp. rewrite <- Hlen, <- (length_map Finite rw).
    eapply topk_in_range; eauto.
  - now apply topk_lengths in Htop as [_ ->].
Qed.

(** What a returned [forward] is made of. *)
Lemma forward_returned gates topk_cfg m w loss scores :
  forward gates topk_cfg m w = Returned (loss, scores) ->
  exists routing_uids routing_endpoints shapely_scores,
    select gates topk_cfg m w = Returned routing_uids /\
    lookup_endpoints m routing_uids = Returned routing_endpoints /\
    scores = tneg shapely_scores /\
    ofold (fun sc '(uid, ctx) =>
             tset sc uid
               (get_target_loss w false
                  (joining_context w (forward_text w routing_endpoints).2
                                     (forward_text w routing_endpoints).1)
                - get_target_loss w false ctx))
          (partial_contexts w (forward_text w routing_endpoints).2
             routing_uids (forward_text w routing_endpoints).1)
          (zeros (n m))
    = Returned shapely_scores.
Proof.
  unfold forward. intros Hrun.
  apply obind_returned in Hrun as (routing_uids & Hsel & Hrun).
  apply obind_returned in Hrun as (eps & Heps & Hrun).
  destruct (forward_text w eps) as [responses ops] eqn:Hq.
  apply obind_returned in Hrun as (scores' & Hshap & Hret).
  injection Hret as _ <-.
  unfold shapely in Hshap.
  apply obind_returned in Hshap as (sc & Hfold & Hret).
  injection Hret as <-.
  exists routing_uids, eps, sc. rewrite Hq. cbn [fst snd].
  repeat split; assumption.
Qed.

Lemma forward_scores_length gates topk_cfg m w loss scores :
  forward gates topk_cfg m w = Returned (loss, scores) ->
  length scores = n m /\ (0 < n m)%nat.
Proof.
  intros (routing_uids & eps & sc & Hsel & _ & -> & Hfold)%forward_returned.
  apply ofold_tset_spec in Hfold as (Hlen & _).
  apply select_returned in Hsel as (_ & Hpos & _).
  unfold tneg. rewrite length_map, Hlen. split; [apply length_replicate|exact Hpos].
Qed.

(** A peer that was not queried has score 0. *)
Lemma forward_score_unqueried gates topk_cfg m w loss scores routing_uids uid :
  forward gates topk_cfg m w = Returned (loss, scores) ->
  select gates topk_cfg m w = Returned routing_uids ->
  (uid < n m)%nat -> uid ∉ routing_uids ->
  scores !! uid = Some 0.
Proof.
  intros (ru & eps & sc & Hsel & _ & -> & Hfold)%forward_returned Hsel' Huid Hout.
  assert (ru = routing_uids) by congruence. subst ru.
  assert (Hnd : NoDup routing_uids)
    by (now apply select_returned in Hsel as (_ & _ & ? & _)).
  apply ofold_tset_spec in Hfold as (_ & Hkeep & _).
  rewrite partial_contexts_keys in Hkeep by exact Hnd.
  specialize (Hkeep uid Hout).
  unfold zeros in Hkeep. rewrite lookup_replicate_2 in Hkeep by exact Huid.
  unfold tneg. change (map ?f ?l) with (f <$> l).
  rewrite list_lookup_fmap, Hkeep. reflexivity.
Qed.

(** C2. For every peer p of the queried subset, the score the forward pass
    returns for p is U(J without p) - U(J), where U is [get_target_loss] in
    eval mode, J the aggregate of all successful responses and "J without p"
    the aggregate recomputed with p's response left out.  In particular,
    with two queried peers and U(J) = 1/2, U(J without the first) = 3/5,
    U(J without the second) = 2/5, the scores are 1/10 and -1/10. *)
Theorem score_is_single_exclusion_delta gates topk_cfg m w loss scores :
  forward gates topk_cfg m w = Returned (loss, scores) ->
  exists routing_uids routing_endpoints,
    select gates topk_cfg m w = Returned routing_uids /\
    lookup_endpoints m routing_uids = Returned routing_endpoints /\
    let responses := (forward_text w routing_endpoints).1 in
    let ops := (forward_text w routing_endpoints).2 in
    let U := get_target_loss w false in
    let J := joining_context w ops responses in
    let J_without i := combine w (joined_responses (Some i) ops responses) in
    (forall i p, routing_uids !! i = Some p ->
                 scores !! p = Some (U (J_without i) - U J)) /\
    (forall i1 i2 p1 p2,
       routing_uids !! i1 = Some p1 -> routing_uids !! i2 = Some p2 ->
       U J = q 1 2 -> U (J_without i1) = q 3 5 -> U (J_without i2) = q 2 5 ->
       scores !! p1 = Some (q 1 10) /\ scores !! p2 = Some (q (-1) 10)).
Proof.
  intros (routing_uids & eps & sc & Hsel & Heps & -> & Hfold)%forward_returned.
  exists routing_uids, eps. split; [exact Hsel|]. split; [exact Heps|].
  cbn zeta.
  set (responses := (forward_text w eps).1) in *.
  set (ops := (forward_text w eps).2) in *.
  set (U := get_target_loss w false) in *.
  set (J := joining_context w ops responses) in *.
  assert (Hnd : NoDup routing_uids)
    by (now apply select_returned in Hsel as (_ & _ & ? & _)).
  assert (Hgeneral : forall i p, routing_uids !! i = Some p ->
    tneg sc !! p
    = Some (U (combine w (joined_responses (Some i) ops responses)) - U J)).
  { intros i p Hp.
    apply (ofold_tset_spec (fun ctx => U J - U ctx)) in Hfold
      as (_ & _ & Hin).
    rewrite partial_contexts_keys in Hin by exact Hnd.
    specialize (Hin Hnd p (combine w (joined_responses (Some i) ops responses))).
    unfold tneg. change (map ?f ?l) with (f <$> l).
    rewrite list_lookup_fmap, Hin.
    - cbn. f_equal. ring.
    - rewrite partial_contexts_distinct by exact Hnd.
      apply list_elem_of_fmap. exists (i, p). split; [reflexivity|].
      now apply elem_of_enumerate. }
  split; [exact Hgeneral|].
  intros i1 i2 p1 p2 Hp1 Hp2 HJ H1 H2.
  rewrite (Hgeneral i1 p1 Hp1), (Hgeneral i2 p2 Hp2), HJ, H1, H2.
  split; f_equal; apply Qc_is_canon; reflexivity.
Qed.

End ForwardProperties.

Section ForwardScenarios.
Import Validator.
Local Open Scope Qc_scope.

Lemma scenario_B_forward :
  forward (init_gates fresh_gate) 2 three_peers scenario_B
  = Returned (q 1 2, [q 0 1; q 1 10; q (-1) 10]).
Proof. apply (bool_decide_unpack _). vm_compute. exact I. Qed.

Lemma scenario_B_select :
  select (init_gates fresh_gate) 2 three_peers scenario_B = Returned [2; 1]%nat.
Proof. vm_compute. reflexivity. Qed.

Lemma score_is_single_exclusion_delta_witness :
  forward (init_gates fresh_gate) 2 three_peers scenario_B
  = Returned (q 1 2, [q 0 1; q 1 10; q (-1) 10]) /\
  [q 0 1; q 1 10; q (-1) 10] !! 1%nat = Some (q 1 10) /\
  [q 0 1; q 1 10; q (-1) 10] !! 2%nat = Some (q (-1) 10).
Proof.
  split; [exact scenario_B_forward|].
  destruct (score_is_single_exclusion_delta _ _ _ _ _ _ scenario_B_forward)
    as (routing_uids & eps & Hsel & Heps & _ & Hscenario).
  rewrite scenario_B_select in Hsel. injection Hsel as <-.
  injection Heps as <-.
  apply (Hscenario 1%nat 0%nat 1%nat 2%nat); reflexivity.
Defined.

End ForwardScenarios.

(** * Properties of the epoch *)

Section EpochProperties.
Import Validator.
Local Open Scope Qc_scope.

Context {Response Hidden : Type}.
Implicit Types (w : World Response Hidden) (m : Metagraph) (st : EpochState).

(** The division of line 177: numbers that sum to 1 when the sum of the
    scores is not 0, and no number at all when it is. *)
Lemma tdiv_cases (raw : Tensor) :
  (tsum raw <> 0 /\
   tdiv raw (tsum raw) = map Finite (map (fun x => x / tsum raw) raw) /\
   tsum (map (fun x => x / tsum raw) raw) = 1) \/
  (tsum raw = 0 /\ Forall nonfinite (tdiv raw (tsum raw))).
Proof.
  destruct (decide (tsum raw = 0)) as [Hz|Hz].
  - right. split; [exact Hz|]. rewrite Hz. apply tdiv_zero.
  - left. split; [exact Hz|]. split; [now apply tdiv_nonzero|].
    rewrite tsum_scale. now apply Qcdiv_self.
Qed.

Lemma step_row_shape cfg gates m w row :
  step_row cfg gates m w row ->
  length row = n m /\ (0 < n m)%nat /\ normalized_or_nonfinite row.
Proof.
  intros (loss & raw & Hfwd & ->).
  apply forward_scores_length in Hfwd as [Hlen Hpos].
  split; [now rewrite length_tdiv|]. split; [exact Hpos|].
  destruct (tdiv_cases raw) as [(_ & -> & Hsum)|[_ Hbad]].
  - left. eauto.
  - now right.
Qed.

Lemma stack_uniform (rows : list FloatTensor) size :
  rows <> [] -> uniform size rows -> stack rows = Returned rows.
Proof.
  destruct rows as [|r rest]; [congruence|]. intros _ Hu.
  inversion Hu as [|? ? Hr Hrest]; subst. unfold stack.
  replace (forallb _ rest) with true; [reflexivity|].
  symmetry. apply forallb_forall. intros s Hs.
  rewrite List.Forall_forall in Hrest. apply Nat.eqb_eq. now apply Hrest.
Qed.

(** One iteration of the loop body: it goes through whenever the forward
    pass returns, whatever the scores sum to. *)
Lemma step_runs cfg gates m w st loss raw :
  epoch_invariant (n m) st ->
  forward gates (nucleus_topk cfg) m w = Returned (loss, raw) ->
  let row := tdiv raw (tsum raw) in
  step cfg gates m w st
  = Returned {| score_history := score_history st ++ [row];
                moving_avg_scores := Some (mean0 (score_history st ++ [row])) |} /\
  epoch_invariant (n m)
    {| score_history := score_history st ++ [row];
       moving_avg_scores := Some (mean0 (score_history st ++ [row])) |}.
Proof.
  intros (Hu & Hrows & Hmavg) Hfwd. cbn zeta.
  assert (Hrow : step_row cfg gates m w (tdiv raw (tsum raw)))
    by (exists loss, raw; auto).
  destruct (step_row_shape _ _ _ _ _ Hrow) as (Hlen & _ & Hshape).
  assert (Hu' : uniform (n m) (score_history st ++ [tdiv raw (tsum raw)])).
  { apply Forall_app. split; [exact Hu|]. now constructor. }
  split.
  - unfold step. rewrite Hfwd. cbn [obind].
    rewrite (stack_uniform _ (n m));
      [reflexivity|now destruct (score_history st)|exact Hu'].
  - cbn. repeat split; auto.
    + apply Forall_app. split; [exact Hrows|]. now constructor.
    + now destruct (score_history st).
Qed.

Lemma step_returned cfg gates m w st st' :
  epoch_invariant (n m) st ->
  step cfg gates m w st = Returned st' ->
  exists row,
    step_row cfg gates m w row /\
    score_history st' = score_history st ++ [row] /\
    moving_avg_scores st' = Some (mean0 (score_history st ++ [row])) /\
    epoch_invariant (n m) st'.
Proof.
  intros Hinv Hstep.
  destruct (forward gates (nucleus_topk cfg) m w) as [[loss raw]|e] eqn:Hfwd.
  - destruct (step_runs cfg gates m w st loss raw Hinv Hfwd) as [Hrun Hinv'].
    rewrite Hrun in Hstep. injection Hstep as <-.
    exists (tdiv raw (tsum raw)).
    split; [exists loss, raw; auto|].
    split; [reflexivity|]. split; [reflexivity|]. exact Hinv'.
  - unfold step in Hstep. rewrite Hfwd in Hstep. discriminate.
Qed.

Lemma epoch_start_invariant size : epoch_invariant size epoch_start.
Proof. repeat split; constructor. Qed.

Lemma after_steps_invariant cfg gates m (ws : list (World Response Hidden)) st :
  after_steps cfg gates m ws st ->
  epoch_invariant (n m) st /\
  Forall2 (step_row cfg gates m) ws (score_history st).
Proof.
  induction 1 as [|ws st w st' _ [IHinv IHrows] Hstep].
  - split; [apply epoch_start_invariant|constructor].
  - destruct (step_returned _ _ _ _ _ _ IHinv Hstep)
      as (row & Hrow & Hhist & _ & Hinv).
    split; [exact Hinv|]. rewrite Hhist.
    apply Forall2_app; [exact IHrows|]. now repeat constructor.
Qed.

(** The loop as run: its result is the state after the steps of the ticks
    that passed the test. *)
Lemma stepping_after_steps cfg gates m limit
    (ticks : list (Tick Response Hidden)) :
  forall (ws : list (World Response Hidden)) st st',
  after_steps cfg gates m ws st ->
  stepping cfg gates m limit ticks st = Returned st' ->
  exists passed,
    passed `prefix_of` ticks /\
    after_steps cfg gates m (ws ++ map world passed) st'.
Proof.
  induction ticks as [|t ticks IH]; intros ws st st' Hafter Hrun;
    cbn in Hrun; [discriminate|].
  destruct (block t <? limit)%Z.
  - apply obind_returned in Hrun as (st1 & Hstep & Hrest).
    destruct (IH (ws ++ [world t]) st1 st' (after_step _ _ _ _ _ _ _ Hafter Hstep) Hrest)
      as (passed & Hpre & Hfinal).
    exists (t :: passed). split; [now apply prefix_cons|].
    cbn [map]. now rewrite <- app_assoc in Hfinal.
  - injection Hrun as <-. exists []. split; [apply prefix_nil|].
    cbn. now rewrite app_nil_r.
Qed.

(** The state a loop with at least one step ends in. *)
Lemma after_steps_state cfg gates m (ws : list (World Response Hidden)) st :
  after_steps cfg gates m ws st -> ws <> [] ->
  score_history st <> [] /\
  uniform (n m) (score_history st) /\
  Forall normalized_or_nonfinite (score_history st) /\
  moving_avg_scores st = Some (mean0 (score_history st)) /\
  length (mean0 (score_history st)) = n m /\
  (0 < n m)%nat.
Proof.
  intros Hafter Hne.
  destruct (after_steps_invariant _ _ _ _ _ Hafter)
    as [(Hu & Hshape & Hmavg) Hrows].
  assert (Hhist : score_history st <> []).
  { intros Hnil. rewrite Hnil in Hrows. inversion Hrows. congruence. }
  repeat split; auto.
  - now destruct (score_history st).
  - now apply mean0_length.
  - destruct Hrows as [|w row ws' rows Hrow _]; [congruence|].
    now apply step_row_shape in Hrow as (_ & ? & _).
Qed.


(** What a commit of [run_epoch] is made of: the loop has taken at least one
    step, and the vector is the top-k of the moving average the loop ended
    with; it is the only vector the run hands over. *)
Lemma run_epoch_commit cfg epoch xavier set_weights gates m start_block
    (ticks : list (Tick Response Hidden)) wv :
  wv ∈ commits (run_epoch cfg epoch xavier set_weights gates m start_block ticks) ->
  exists gates' st (ws : list (World Response Hidden)),
    run_steps cfg epoch xavier gates m start_block ticks = Returned (gates', st) /\
    ws <> [] /\
    after_steps cfg gates' m ws st /\
    topk (mean0 (score_history st)) (Nat.min (n_topk_peer_weights cfg) (n m))
    = Returned (wv_weights wv, wv_uids wv) /\
    run_epoch cfg epoch xavier set_weights gates m start_block ticks
    = (let! _ := set_weights None (wv_uids wv) (wv_weights wv) in
       Returned {| gates_after := gates'; final_state := st; committed := wv |},
       [wv]).
Proof.
  unfold commits, run_epoch. cbn zeta.
  destruct (run_steps cfg epoch xavier gates m start_block ticks)
    as [[gates' st]|e] eqn:Hsteps; cbn [obind snd]; [|intros Hin; inversion Hin].
  destruct (moving_avg_scores st) as [mavg|] eqn:Hmavg; cbn [obind snd];
    [|intros Hin; inversion Hin].
  destruct (unbiased_topk mavg _) as [[vals idxs]|e] eqn:Htop; cbn [obind snd];
    [|intros Hin; inversion Hin].
  intros Hin. apply list_elem_of_singleton in Hin. subst wv. cbn [wv_uids wv_weights].
  unfold run_steps in Hsteps.
  apply obind_returned in Hsteps as (gates1 & _ & Hsteps).
  apply obind_returned in Hsteps as (st1 & Hstepping & Hret).
  injection Hret as <- <-.
  destruct (stepping_after_steps _ _ _ _ _ [] _ _ (after_none _ _ _) Hstepping)
    as (passed & _ & Hafter).
  cbn in Hafter.
  assert (Hne : map world passed <> []).
  { intros Hnil. rewrite Hnil in Hafter.
    apply after_steps_invariant in Hafter as [(_ & _ & Hm) Hrows].
    apply Forall2_length in Hrows. cbn in Hrows.
    destruct (score_history st1); [congruence|discriminate]. }
  destruct (after_steps_state _ _ _ _ _ Hafter Hne) as (_ & _ & _ & Hm & _).
  assert (mavg = mean0 (score_history st1)) by congruence. subst mavg.
  exists gates1, st1, (map world passed). repeat split; auto.
Qed.

(** C1. The vector [run_epoch] hands to [set_weights] is the plain top-K of
    the moving average with K = min(n_topk_peer_weights, n): K distinct
    uids, each with its own moving-average score as weight, and no peer left
    out ranks above a submitted one.  The sign of a score plays no part:
    when K covers the whole network every peer is submitted, whatever its
    score.  There is one such vector per epoch at most. *)
Theorem commit_is_unfiltered_topk cfg epoch xavier set_weights gates m
    start_block (ticks : list (Tick Response Hidden)) wv :
  wv ∈ commits (run_epoch cfg epoch xavier set_weights gates m start_block ticks) ->
  commits (run_epoch cfg epoch xavier set_weights gates m start_block ticks) = [wv] /\
  exists gates' st mavg,
    run_steps cfg epoch xavier gates m start_block ticks = Returned (gates', st) /\
    moving_avg_scores st = Some mavg /\
    length mavg = n m /\
    let K := Nat.min (n_topk_peer_weights cfg) (n m) in
    length (wv_uids wv) = K /\ length (wv_weights wv) = K /\
    NoDup (wv_uids wv) /\
    (forall i uid, wv_uids wv !! i = Some uid ->
       exists score, mavg !! uid = Some score /\ wv_weights wv !! i = Some score) /\
    (forall uid score v, mavg !! uid = Some score -> uid ∉ wv_uids wv ->
       v ∈ wv_weights wv -> rank_le score v) /\
    ((n m <= n_topk_peer_weights cfg)%nat ->
       forall uid, (uid < n m)%nat -> uid ∈ wv_uids wv).
Proof.
  intros (gates' & st & ws & Hsteps & Hne & Hafter & Htop & Hrun)%run_epoch_commit.
  split; [now rewrite Hrun|].
  destruct (after_steps_state _ _ _ _ _ Hafter Hne)
    as (_ & _ & _ & Hmavg & Hlen & _).
  exists gates', st, (mean0 (score_history st)).
  split; [exact Hsteps|]. split; [exact Hmavg|]. split; [exact Hlen|]. cbn zeta.
  destruct (topk_lengths _ _ _ _ Htop) as [Hlv Hli].
  split; [exact Hli|]. split; [exact Hlv|].
  split; [eapply topk_NoDup; exact Htop|].
  split.
  { intros i uid Hi. destruct (topk_lookup _ _ _ _ _ _ Htop Hi) as (v & ? & ?).
    eauto. }
  split.
  { intros uid score v Hs Hout Hv. eapply topk_dominates; eauto. }
  intros Hk uid Huid.
  rewrite Nat.min_r in Htop by exact Hk. rewrite <- Hlen in Htop, Huid.
  eapply topk_all; eauto.
Qed.




(** *** Determinism of the scoring path *)

Lemma ofold_ext {A B} (f g : B -> A -> outcome B) (l : list A) :
  (forall acc x, x ∈ l -> f acc x = g acc x) ->
  forall acc, ofold f l acc = ofold g l acc.
Proof.
  induction l as [|x l IH]; intros Hfg acc; cbn; [reflexivity|].
  rewrite Hfg by (apply elem_of_cons; now left).
  destruct (g acc x) as [acc'|e]; cbn; [|reflexivity].
  apply IH. intros acc0 y Hy. apply Hfg. apply elem_of_cons. now right.
Qed.

Lemma ofold_map {A A' B} (h : A -> A') (f : B -> A' -> outcome B) (l : list A) :
  forall acc, ofold f (map h l) acc = ofold (fun acc x => f acc (h x)) l acc.
Proof.
  induction l as [|x l IH]; intros acc; cbn; [reflexivity|].
  destruct (f acc (h x)) as [acc'|e]; cbn; [apply IH|reflexivity].
Qed.

(** The scores of a forward pass depend on the world only through what
    [same_observations] fixes. *)
Lemma forward_scores_ext cfg gates m w1 w2 :
  same_observations cfg gates m w1 w2 ->
  (let! (_, scores) := forward gates (nucleus_topk cfg) m w1 in Returned scores)
  = (let! (_, scores) := forward gates (nucleus_topk cfg) m w2 in Returned scores).
Proof.
  intros (Hsel & Hquery & Hloss). unfold forward. rewrite Hsel.
  destruct (select gates (nucleus_topk cfg) m w2) as [ru|e] eqn:Hsel2;
    cbn; [|reflexivity].
  assert (Hnd : NoDup ru)
    by (now apply select_returned in Hsel2 as (_ & _ & ? & _)).
  destruct (lookup_endpoints m ru) as [eps|e]; cbn; [|reflexivity].
  rewrite Hquery. destruct (forward_text w2 eps) as [responses ops].
  assert (Hshap : shapely w1 (n m) (joining_context w1 ops responses)
                    (partial_contexts w1 ops ru responses)
                  = shapely w2 (n m) (joining_context w2 ops responses)
                    (partial_contexts w2 ops ru responses)).
  { unfold shapely, joining_context.
    rewrite !partial_contexts_distinct by exact Hnd.
    rewrite !ofold_map.
    rewrite (ofold_ext _
      (fun acc x =>
         let '(uid, ctx) :=
           (let '(i, uid) := x in
            (uid, combine w2 (joined_responses (Some i) ops responses))) in
         tset acc uid
           (get_target_loss w2 false
              (combine w2 (joined_responses None ops responses))
            - get_target_loss w2 false ctx))); [reflexivity|].
    intros acc [i uid] _. cbn. now rewrite !Hloss. }
  rewrite Hshap.
  destruct (shapely w2 (n m) _ _); reflexivity.
Qed.

Lemma step_ext cfg gates m w1 w2 st :
  same_observations cfg gates m w1 w2 ->
  step cfg gates m w1 st = step cfg gates m w2 st.
Proof.
  intros Hsame. pose proof (forward_scores_ext _ _ _ _ _ Hsame) as Hscores.
  unfold step.
  destruct (forward gates (nucleus_topk cfg) m w1) as [[l1 s1]|e1];
    destruct (forward gates (nucleus_topk cfg) m w2) as [[l2 s2]|e2];
    cbn [obind] in Hscores |- *; try congruence.
  injection Hscores as ->. reflexivity.
Qed.

(** C8. Two runs of the evaluate-score loop whose ticks read the same blocks
    and in which the peer-query results and the Scorer's outputs agree step
    by step end alike: same outcome, same [score_history], same
    [moving_avg_scores]; nothing else the runs may differ in (gate outputs,
    noise sample, training loss) reaches the scores. *)
Theorem scoring_is_deterministic cfg gates m limit
    (ticks1 ticks2 : list (Tick Response Hidden)) :
  Forall2 (fun t1 t2 => block t1 = block t2 /\
                        same_observations cfg gates m (world t1) (world t2))
          ticks1 ticks2 ->
  stepping cfg gates m limit ticks1 epoch_start
  = stepping cfg gates m limit ticks2 epoch_start /\
  forall st1 st2,
    stepping cfg gates m limit ticks1 epoch_start = Returned st1 ->
    stepping cfg gates m limit ticks2 epoch_start = Returned st2 ->
    score_history st1 = score_history st2 /\
    moving_avg_scores st1 = moving_avg_scores st2.
Proof.
  intros Hticks.
  assert (Heq : forall st, stepping cfg gates m limit ticks1 st
                           = stepping cfg gates m limit ticks2 st).
  { induction Hticks as [|t1 t2 ticks1 ticks2 [Hblock Hsame] _ IH];
      intros st; cbn; [reflexivity|].
    rewrite Hblock. destruct (block t2 <? limit)%Z; [|reflexivity].
    rewrite (step_ext _ _ _ _ _ st Hsame).
    destruct (step cfg gates m (world t2) st); cbn; [apply IH|reflexivity]. }
  split; [apply Heq|].
  intros st1 st2 H1 H2. rewrite Heq, H2 in H1. injection H1 as <-. auto.
Qed.

(** *** The empty registry *)

(** C9. When the registry sync yields no peer, peer selection does not
    return: [torch.cat] raises on the empty list of gate outputs.  The
    forward pass and the epoch raise with it, the commit is never reached,
    and so nothing is sent to the ledger. *)
Theorem empty_registry_raises cfg gates m w
    epoch xavier set_weights start_block (ticks : list (Tick Response Hidden)) :
  uids m = [] ->
  select gates (nucleus_topk cfg) m w
  = Raised (RuntimeError "torch.cat(): expected a non-empty list of Tensors") /\
  forward gates (nucleus_topk cfg) m w
  = Raised (RuntimeError "torch.cat(): expected a non-empty list of Tensors") /\
  (exists e, fst (run_epoch cfg epoch xavier set_weights gates m start_block ticks)
             = Raised e) /\
  commits (run_epoch cfg epoch xavier set_weights gates m start_block ticks) = [].
Proof.
  intros Hempty.
  assert (Hsel : forall gates' w',
    select gates' (nucleus_topk cfg) m w'
    = Raised (RuntimeError "torch.cat(): expected a non-empty list of Tensors")).
  { intros gates' w'. unfold select. rewrite Hempty. reflexivity. }
  assert (Hfwd : forall gates' w',
    forward gates' (nucleus_topk cfg) m w'
    = Raised (RuntimeError "torch.cat(): expected a non-empty list of Tensors")).
  { intros gates' w'. unfold forward. rewrite Hsel. reflexivity. }
  assert (Hrun : exists e,
    run_epoch cfg epoch xavier set_weights gates m start_block ticks
    = (Raised e, [])).
  { unfold run_epoch, run_steps.
    destruct (match epochs_until_reset cfg with
              | O => Raised ZeroDivisionError
              | S _ => if Nat.eqb (epoch mod epochs_until_reset cfg) 0
                       then reset_weights xavier gates else Returned gates
              end) as [gates'|e]; cbn [obind]; [|eauto].
    destruct ticks as [|t ticks]; cbn [stepping obind]; [eauto|].
    destruct (block t <? start_block + blocks_per_epoch cfg)%Z; cbn [obind].
    - unfold step. rewrite Hfwd. cbn [obind]. eauto.
    - cbn. eauto. }
  split; [apply Hsel|]. split; [apply Hfwd|].
  destruct Hrun as [e ->]. split; [now exists e|reflexivity].
Qed.

End EpochProperties.

(** * Properties of the gate table *)

Section GateProperties.
Import Validator.
Local Open Scope Qc_scope.

Context {Response Hidden : Type}.
Implicit Types (w : World Response Hidden) (m : Metagraph).

Lemma fill_gates_lookup (fresh : nat -> Linear) (size uid : nat) :
  is_Some (foldl (fun gates u => <[u := fresh u]> gates)
                 (∅ : gmap nat Linear) (seq 0 size) !! uid)
  <-> (uid < size)%nat.
Proof.
  induction size as [|size IH].
  - cbn. rewrite lookup_empty. split; [intros [? ?]; discriminate|lia].
  - rewrite seq_S, foldl_app. cbn [foldl Nat.add].
    rewrite lookup_insert_is_Some, IH. lia.
Qed.

Lemma refill_gates (xavier : nat -> list Qc) (l : list nat) :
  forall gates : gmap nat Linear,
    (forall uid, uid ∈ l -> is_Some (gates !! uid)) ->
    exists gates',
      ofold (fun gates uid =>
               match gates !! uid with
               | Some g => Returned (<[uid := {| weight := xavier uid;
                                                 bias := bias g |}]> gates)
               | None => Raised (KeyError uid)
               end) l gates = Returned gates' /\
      forall uid, is_Some (gates' !! uid) <-> is_Some (gates !! uid).
Proof.
  induction l as [|k l IH]; intros gates Hall.
  - exists gates. split; [reflexivity|tauto].
  - destruct (Hall k) as [g Hg]; [apply elem_of_cons; now left|].
    cbn. rewrite Hg. cbn.
    destruct (IH (<[k := {| weight := xavier k; bias := bias g |}]> gates))
      as (gates' & Hrun & Hdom).
    + intros uid Huid. rewrite lookup_insert_is_Some.
      destruct (decide (k = uid)); [now left|right].
      split; [assumption|]. apply Hall. apply elem_of_cons. now right.
    + exists gates'. split; [exact Hrun|].
      intros uid. rewrite Hdom, lookup_insert_is_Some.
      split; [|intros ?; destruct (decide (k = uid)); auto].
      intros [<-|[_ ?]]; [now exists g|assumption].
Qed.

Lemma gate_lookup_fails (gates : gmap nat Linear) w (l : list nat) :
  (exists uid, uid ∈ l /\ gates !! uid = None) ->
  exists uid,
    uid ∈ l /\ gates !! uid = None /\
    omapM (fun uid => match gates !! uid with
                      | Some g => Returned (route w g)
                      | None => Raised (KeyError uid)
                      end) l = Raised (KeyError uid).
Proof.
  induction l as [|k l IH]; intros (uid & Hin & Hnone).
  - inversion Hin.
  - cbn. destruct (gates !! k) as [g|] eqn:Hk.
    + apply elem_of_cons in Hin as [->|Hin]; [congruence|].
      destruct IH as (uid' & Hin' & Hnone' & ->); [eauto|].
      exists uid'. repeat split; auto. apply elem_of_cons. now right.
    + exists k. repeat split; auto. apply elem_of_cons. now left.
Qed.

Lemma init_gates_full (fresh : nat -> Linear) :
  gate_table_full (init_gates fresh).
Proof. intros uid. unfold init_gates. apply fill_gates_lookup. Qed.

Lemma reset_weights_keeps_table (xavier : nat -> list Qc)
    (gates : gmap nat Linear) :
  gate_table_full gates ->
  exists gates', reset_weights xavier gates = Returned gates' /\
                 gate_table_full gates'.
Proof.
  intros Hfull.
  destruct (refill_gates xavier (seq 0 2000) gates) as (gates' & Hrun & Hdom).
  - intros uid Huid. apply Hfull. apply elem_of_seq in Huid. lia.
  - exists gates'. split; [exact Hrun|].
    intros uid. rewrite Hdom. apply Hfull.
Qed.

(** C10. The gate table is filled for exactly the uids 0 to 1999 when the
    nucleus is built, and nothing adds to it afterwards: [reset_weights]
    re-draws those 2000 gates whatever the network is, without failing and
    without changing which uids have a gate, and the forward pass of a
    network with a uid of 2000 or more fails with a [KeyError] on that uid's
    gate lookup. *)
Theorem gate_table_is_fixed (fresh : nat -> Linear) :
  gate_table_full (init_gates fresh) /\
  (forall gates xavier,
     gate_table_full gates ->
     exists gates', reset_weights xavier gates = Returned gates' /\
                    gate_table_full gates') /\
  (forall gates topk_cfg m w,
     gate_table_full gates ->
     (exists uid, uid ∈ uids m /\ (2000 <= uid)%nat) ->
     exists uid, uid ∈ uids m /\ (2000 <= uid)%nat /\
                 select gates topk_cfg m w = Raised (KeyError uid) /\
                 forward gates topk_cfg m w = Raised (KeyError uid)).
Proof.
  split; [|split].
  - apply init_gates_full.
  - intros gates xavier. apply reset_weights_keeps_table.
  - intros gates topk_cfg m w Hfull (uid & Hin & Hbig).
    destruct (gate_lookup_fails gates w (uids m)) as (k & Hk & Hnone & Hfail).
    + exists uid. split; [exact Hin|].
      apply eq_None_not_Some. intros Hsome. apply Hfull in Hsome. lia.
    + assert (Hsel : select gates topk_cfg m w = Raised (KeyError k))
        by (unfold select; now rewrite Hfail).
      exists k. repeat split; auto.
      * destruct (le_lt_dec 2000 k) as [Hge|Hlt]; [exact Hge|].
        apply Hfull in Hlt. rewrite Hnone in Hlt.
        destruct Hlt; discriminate.
      * unfold forward. now rewrite Hsel.
Qed.

End GateProperties.

(** * The scenarios, run *)

Section Scenarios.
Import Validator ValidatorScenarios.
Local Open Scope Qc_scope.

(** The epoch of the harmful peer: raw scores 3, -1 and 2, a single row
    3/4, -1/4, 1/2. *)
Lemma harmful_loop_end :
  loop_end (run_steps (config 3 3) 1 (fun _ => []) (init_gates fresh_gate)
              three_peers 100 (one_step harmful_peer))
  = Returned {| score_history := [harmful_average];
                moving_avg_scores := Some harmful_average |}.
Proof. apply (bool_decide_unpack _). vm_compute. exact I. Qed.

(** With three weights to set, the harmful peer (uid 1, moving average -1/4)
    is part of the commit, whichever subtensor object takes it. *)
Lemma harmful_epoch_all :
  commits (harmful_epoch lenient_subtensor 3) = [harmful_vector_all] /\
  commits (harmful_epoch repository_subtensor 3) = [harmful_vector_all].
Proof. split; apply (bool_decide_unpack _); vm_compute; exact I. Qed.



Lemma elem_of_harmful_commits :
  harmful_vector_all ∈ commits (harmful_epoch lenient_subtensor 3).
Proof. rewrite (proj1 harmful_epoch_all). apply list_elem_of_singleton. reflexivity. Qed.

(** A subtensor object that takes the call lets the epoch return. *)
Lemma harmful_epoch_goes_through :
  exists res,
    fst (harmful_epoch lenient_subtensor 3) = Returned res /\
    committed res = harmful_vector_all.
Proof.
  destruct (run_epoch_commit (config 3 3) 1%nat (fun _ => []) lenient_subtensor
              (init_gates fresh_gate) three_peers 100%Z (one_step harmful_peer)
              harmful_vector_all elem_of_harmful_commits)
    as (gates' & st & ws & _ & _ & _ & _ & Hrun).
  rewrite Hrun. cbn. eauto.
Qed.

(** Counterexample to C1 as stated: a peer with a negative moving average is
    submitted. *)
Lemma commit_keeps_negative_peer :
  loop_end (run_steps (config 3 3) 1 (fun _ => []) (init_gates fresh_gate)
              three_peers 100 (one_step harmful_peer))
  = Returned {| score_history := [harmful_average];
                moving_avg_scores := Some harmful_average |} /\
  commits (harmful_epoch lenient_subtensor 3) = [harmful_vector_all] /\
  commits (harmful_epoch repository_subtensor 3) = [harmful_vector_all] /\
  (exists res,
     fst (harmful_epoch lenient_subtensor 3) = Returned res /\
     committed res = harmful_vector_all) /\
  ~ negatives_excluded harmful_average harmful_vector_all.
Proof.
  split; [exact harmful_loop_end|].
  split; [exact (proj1 harmful_epoch_all)|].
  split; [exact (proj2 harmful_epoch_all)|].
  split; [exact harmful_epoch_goes_through|].
  intros Hexcl. apply (Hexcl 1%nat (Finite (q (-1) 4))).
  - apply (bool_decide_unpack _). vm_compute. exact I.
  - reflexivity.
  - reflexivity.
Qed.

Lemma commit_is_unfiltered_topk_witness :
  commits (harmful_epoch lenient_subtensor 3) = [harmful_vector_all] /\
  length (wv_uids harmful_vector_all) = 3%nat /\
  NoDup (wv_uids harmful_vector_all).
Proof.
  destruct (commit_is_unfiltered_topk (config 3 3) 1%nat (fun _ => [])
              lenient_subtensor (init_gates fresh_gate) three_peers 100%Z
              (one_step harmful_peer) harmful_vector_all
              elem_of_harmful_commits)
    as (Hone & gates' & st & mavg & _ & _ & _ & Hlen & _ & Hnd & _).
  split; [exact Hone|]. split; [exact Hlen|exact Hnd].
Defined.






(** Two runs that differ in the noise sample and the training loss. *)
Lemma harmful_peer_same_observations :
  same_observations (config 3 3) (init_gates fresh_gate) three_peers
    harmful_peer harmful_peer_noisy.
Proof.
  split; [vm_compute; reflexivity|].
  split; intros; reflexivity.
Qed.

Lemma harmful_ticks_agree :
  Forall2 (fun t1 t2 : Tick string (list string) =>
             block t1 = block t2 /\
             same_observations (config 3 3) (init_gates fresh_gate) three_peers
               (world t1) (world t2))
          (one_step harmful_peer) (one_step harmful_peer_noisy).
Proof.
  unfold one_step.
  apply Forall2_cons;
    [split; [reflexivity|exact harmful_peer_same_observations]|].
  apply Forall2_cons;
    [split; [reflexivity|exact harmful_peer_same_observations]|].
  apply Forall2_nil.
Qed.

Lemma scoring_is_deterministic_witness :
  stepping (config 3 3) (init_gates fresh_gate) three_peers 102
    (one_step harmful_peer) epoch_start
  = stepping (config 3 3) (init_gates fresh_gate) three_peers 102
      (one_step harmful_peer_noisy) epoch_start.
Proof.
  exact (proj1 (scoring_is_deterministic (config 3 3) (init_gates fresh_gate)
                  three_peers 102%Z (one_step harmful_peer)
                  (one_step harmful_peer_noisy) harmful_ticks_agree)).
Defined.

(** Counterexample to C9 as stated: on an empty registry peer selection does
    not return the empty subset, and the epoch derives no weight vector. *)
Lemma empty_registry_selection_fails :
  select (init_gates fresh_gate) 3 no_peers scenario_A <> Returned [] /\
  ~ (exists res,
       fst (run_epoch (config 3 3) 1 (fun _ => []) lenient_subtensor
              (init_gates fresh_gate) no_peers 100 (one_step scenario_A))
       = Returned res).
Proof.
  split.
  - discriminate.
  - intros [res Hrun]. vm_compute in Hrun. discriminate.
Qed.

Lemma empty_registry_raises_witness :
  commits (run_epoch (config 3 3) 1 (fun _ => []) lenient_subtensor
             (init_gates fresh_gate) no_peers 100 (one_step scenario_A)) = [].
Proof.
  exact (proj2 (proj2 (proj2
           (empty_registry_raises (config 3 3) (init_gates fresh_gate)
              no_peers scenario_A 1%nat (fun _ => []) lenient_subtensor 100%Z
              (one_step scenario_A) eq_refl)))).
Defined.

Lemma oversized_network_has_big_uid :
  exists uid, uid ∈ uids oversized_network /\ (2000 <= uid)%nat.
Proof.
  exists 2000%nat. split; [|apply Nat.le_refl].
  unfold oversized_network, uids. apply elem_of_seq. split.
  - apply Nat.le_0_l.
  - apply Nat.lt_succ_diag_r.
Qed.

(** Counterexample to C10 as stated: on a network with uid 2000 the
    weight-reset routine does not fail on a gate lookup. *)
Lemma reset_weights_ignores_network :
  (exists uid, uid ∈ uids oversized_network /\ (2000 <= uid)%nat) /\
  ~ (exists key, reset_weights (fun _ => []) (init_gates fresh_gate)
                 = Raised (KeyError key)).
Proof.
  split; [exact oversized_network_has_big_uid|].
  intros [key Hfail].
  destruct (reset_weights_keeps_table (fun _ => []) (init_gates fresh_gate)
              (init_gates_full fresh_gate)) as (gates' & Hrun & _).
  congruence.
Qed.

Lemma gate_table_is_fixed_witness :
  exists uid, uid ∈ uids oversized_network /\ (2000 <= uid)%nat /\
    select (init_gates fresh_gate) 3 oversized_network scenario_A
    = Raised (KeyError uid).
Proof.
  destruct (@gate_table_is_fixed string (list string) fresh_gate)
    as (Hfull & _ & Hforward).
  destruct (Hforward (init_gates fresh_gate) 3%nat oversized_network scenario_A
              Hfull oversized_network_has_big_uid)
    as (uid & Hin & Hbig & Hsel & _).
  exists uid. auto.
Defined.

End Scenarios.

(** * Further properties of the chain client *)

Section SubtensorFurther.
Import Subtensor SubtensorScenarios.

Lemma query_attempt_run (s : SubstrateInterface) (m name : string)
    (params : list string) (log : Log) :
  (do bh <- block_hash_of s None;
   rpc (EQuery m name params bh) (fun l => query s l m name params bh)) log
  = (query s log m name params None, log ++ [EQuery m name params None]).
Proof. reflexivity. Qed.

(** X1. A transient failure is recovered from: when the first attempt of
    [query_subtensor] fails in the transport and the second one answers, the
    caller gets the second answer, after one sleep of 2 seconds and two
    queries. *)
Theorem query_subtensor_recovers
    (s : SubstrateInterface) (name : string) (params : list string)
    (log0 : Log) (msg answer : string) :
  let q := EQuery "SubtensorModule" name params None in
  query s log0 "SubtensorModule" name params None
    = Raised (TransportError msg) ->
  query s (log0 ++ [q; ESleep 2]) "SubtensorModule" name params None
    = Returned answer ->
  query_subtensor s name None params log0
  = (Returned (Some answer), log0 ++ [q; ESleep 2; q]).
Proof.
  cbn zeta. intros H1 H2. unfold query_subtensor, retry, substrate_policy.
  cbn [tries delay backoff max_delay retry_loop].
  rewrite query_attempt_run, H1. unfold bind at 1, sleep.
  rewrite query_attempt_run. rewrite <- app_assoc. cbn [app].
  rewrite H2. rewrite <- app_assoc. reflexivity.
Qed.

Lemma query_subtensor_recovers_witness :
  query_subtensor flaky_once "Tempo" None ["1"] []
  = (Returned (Some "0x2a"),
     [EQuery "SubtensorModule" "Tempo" ["1"] None; ESleep 2;
      EQuery "SubtensorModule" "Tempo" ["1"] None]).
Proof.
  exact (query_subtensor_recovers flaky_once "Tempo" ["1"] [] "timeout" "0x2a"
           eq_refl eq_refl).
Defined.

(** The three ways an attempt of a block-less query can leave the log. *)
Lemma retry_query_cases (s : SubstrateInterface) (m name : string)
    (params : list string) (log0 : Log) r log1 :
  retry substrate_policy
    (do bh <- block_hash_of s None;
     rpc (EQuery m name params bh) (fun l => query s l m name params bh)) log0
  = (r, log1) ->
  let q := EQuery m name params None in
  log1 = log0 ++ [q] \/
  log1 = log0 ++ [q; ESleep 2; q] \/
  log1 = log0 ++ [q; ESleep 2; q; ESleep 4; q].
Proof.
  cbn zeta. unfold retry, substrate_policy.
  cbn [tries delay backoff max_delay retry_loop].
  rewrite query_attempt_run.
  destruct (query s log0 m name params None) as [a1|e1].
  { intros [= <- <-]. now left. }
  unfold bind at 1, sleep. rewrite query_attempt_run.
  destruct (query s _ m name params None) as [a2|e2].
  { intros [= <- <-]. right; left. now rewrite <- !app_assoc. }
  unfold bind at 1. rewrite query_attempt_run.
  change (Z.min (2 * 2) 4) with 4.
  destruct (query s _ m name params None) as [a3|e3];
    intros [= <- <-]; right; right; now rewrite <- !app_assoc.
Qed.

(** X2. Whatever the node does, a block-less [query_subtensor] or
    [query_module] sends at most three queries and sleeps at most twice, 2
    and then 4 seconds: the log grows by one of three shapes. *)
Theorem retried_query_never_exceeds_policy
    (s : SubstrateInterface) (module name : string) (params : list string)
    (log0 : Log) :
  let shapes m log1 :=
    let q := EQuery m name params None in
    log1 = log0 ++ [q] \/
    log1 = log0 ++ [q; ESleep 2; q] \/
    log1 = log0 ++ [q; ESleep 2; q; ESleep 4; q] in
  shapes "SubtensorModule" (snd (query_subtensor s name None params log0)) /\
  shapes module (snd (query_module s module name None params log0)).
Proof.
  cbn zeta. split.
  - destruct (query_subtensor s name None params log0) as [r log1] eqn:Hrun.
    exact (retry_query_cases _ _ _ _ _ _ _ Hrun).
  - destruct (query_module s module name None params log0) as [r log1] eqn:Hrun.
    exact (retry_query_cases _ _ _ _ _ _ _ Hrun).
Qed.

(** X3. A weight commit that cannot be composed or signed is never
    submitted: [_do_set_weights] passes the error on as it is, having sent
    nothing to the ledger. *)
Theorem failed_compose_or_sign_submits_nothing
    (s : SubstrateInterface) (hotkey : string) (uids vals : list Z)
    (netuid version_key : Z) (wi wf : bool) (log0 : Log) (e : exn) :
  let params := {| call_module := "SubtensorModule";
                   call_function := "set_weights";
                   dests := uids; weights := vals;
                   netuid := netuid; version_key := version_key |} in
  let run := _do_set_weights s hotkey uids vals netuid version_key wi wf log0 in
  (compose_call s log0 params = Raised e ->
   fst run = Raised e /\ snd run = log0 ++ [EComposeCall params]) /\
  (forall call,
     compose_call s log0 params = Returned call ->
     create_signed_extrinsic s (log0 ++ [EComposeCall params]) call hotkey 100
       = Raised e ->
     fst run = Raised e /\
     snd run = log0 ++ [EComposeCall params;
                        ECreateSignedExtrinsic call hotkey 100] /\
     submissions (snd run) = submissions log0).
Proof.
  cbn zeta. split.
  - intros Hc. unfold _do_set_weights, bind, rpc. rewrite Hc. auto.
  - intros call Hc Hx. unfold _do_set_weights, bind, rpc. rewrite Hc, Hx.
    cbn [fst snd]. rewrite <- app_assoc. repeat split.
    rewrite submissions_app. cbn. lia.
Qed.

Lemma failed_compose_or_sign_submits_nothing_witness :
  _do_set_weights offline_substrate "hotkey" [0] [65535] 1 0 true false []
  = (Raised (TransportError "connection reset"),
     [EComposeCall {| call_module := "SubtensorModule";
                      call_function := "set_weights";
                      dests := [0]; weights := [65535];
                      netuid := 1; version_key := 0 |}]).
Proof.
  destruct (failed_compose_or_sign_submits_nothing offline_substrate "hotkey"
              [0] [65535] 1 0 true false []
              (TransportError "connection reset")) as [Hcompose _].
  destruct (Hcompose eq_refl) as [Hr Hl].
  apply injective_projections; assumption.
Defined.

(** X4. Whatever the substrate does, [_do_set_weights] submits at most once
    and never sleeps; when it returns, it has submitted exactly once, it
    never pairs success with an error message, and it reports failure only
    if the caller asked to wait. *)
Theorem set_weights_result_is_coherent
    (s : SubstrateInterface) (hotkey : string) (uids vals : list Z)
    (netuid version_key : Z) (wi wf : bool) (log0 : Log) :
  let run := _do_set_weights s hotkey uids vals netuid version_key wi wf log0 in
  (submissions (snd run) <= S (submissions log0))%nat /\
  slept (snd run) = slept log0 /\
  forall ok err,
    fst run = Returned (ok, err) ->
    submissions (snd run) = S (submissions log0) /\
    (ok = true -> err = None) /\
    (ok = false -> wi || wf = true).
Proof.
  cbn zeta. unfold _do_set_weights, bind, rpc.
  destruct (compose_call s log0 _) as [call|e]; cbn [fst snd].
  2:{ rewrite submissions_app, slept_app. cbn. rewrite app_nil_r.
      split; [lia|]. split; [reflexivity|]. discriminate. }
  destruct (create_signed_extrinsic s _ call hotkey 100) as [x|e]; cbn [fst snd].
  2:{ rewrite !submissions_app, !slept_app. cbn. rewrite !app_nil_r.
      split; [lia|]. split; [reflexivity|]. discriminate. }
  destruct (submit_extrinsic s _ x wi wf) as [receipt|e]; cbn [fst snd].
  2:{ rewrite !submissions_app, !slept_app. cbn. rewrite !app_nil_r.
      split; [lia|]. split; [reflexivity|]. discriminate. }
  destruct wi, wf, (is_success receipt); cbn [negb andb orb fst snd ret];
    rewrite !submissions_app, !slept_app; cbn; rewrite !app_nil_r;
    (split; [lia|]; split; [reflexivity|];
     intros ok err [= <- <-]; split; [lia|]; split;
     first [reflexivity | discriminate | intros; reflexivity]).
Qed.

End SubtensorFurther.

(** * Further properties of the validator *)

Section ValidatorFurther.
Import Validator.
Local Open Scope Qc_scope.

Context {Response Hidden : Type}.
Implicit Types (w : World Response Hidden) (m : Metagraph) (st : EpochState).

(** X5. Peer selection returns exactly min(topk, number of uids) routing
    uids, all different and all positions of the routing-weight tensor. *)
Theorem selection_size_and_distinctness gates topk_cfg m w routing_uids :
  select gates topk_cfg m w = Returned routing_uids ->
  length routing_uids = Nat.min (length (uids m)) topk_cfg /\
  NoDup routing_uids /\
  Forall (fun p => (p < n m)%nat) routing_uids.
Proof.
  intros (_ & _ & Hnd & Hrange & Hlen)%select_returned.
  split; [exact Hlen|]. split; [exact Hnd|].
  apply List.Forall_forall. intros p Hp. apply Hrange.
  now apply list_elem_of_In.
Qed.

Lemma gate_lookup_succeeds (gates : gmap nat Linear) w (l : list nat) :
  (forall uid, uid ∈ l -> is_Some (gates !! uid)) ->
  exists out,
    omapM (fun uid => match gates !! uid with
                      | Some g => Returned (route w g)
                      | None => Raised (KeyError uid)
                      end) l = Returned out /\
    length out = length l.
Proof.
  induction l as [|k l IH]; intros Hall.
  - exists []. split; reflexivity.
  - destruct (Hall k) as [g Hg]; [apply elem_of_cons; now left|].
    destruct IH as (out & Hout & Hlen).
    { intros uid Huid. apply Hall. apply elem_of_cons. now right. }
    exists (route w g :: out). cbn. rewrite Hg. cbn. rewrite Hout. cbn.
    split; [reflexivity|]. now rewrite Hlen.
Qed.

Lemma routing_fill_fails m (noisy : nat -> Qc) (l : list (nat * Qc))
    (us : list nat) :
  Forall2 (fun p u => uids m !! p.1 = Some u) l us ->
  forall acc : Tensor,
    length acc = n m ->
    (exists u, u ∈ us /\ (n m <= u)%nat) ->
    exists u, u ∈ us /\ (n m <= u)%nat /\
      ofold (fun rw '(i, b) =>
               let! uid := getitem (uids m) i in
               tset rw uid (b + noisy i)) l acc
      = Raised (IndexError u).
Proof.
  induction 1 as [|[i b] u l us Hu _ IH]; intros acc Hlen (u0 & Hin & Hbig).
  - inversion Hin.
  - cbn in Hu. cbn [ofold]. unfold getitem at 1. rewrite Hu. cbn [obind].
    unfold tset at 1. case_decide as Hlt.
    + cbn [obind]. apply elem_of_cons in Hin as [->|Hin]; [lia|].
      destruct (IH (<[u := b + noisy i]> acc)) as (u' & Hin' & Hbig' & Hrun).
      * now rewrite length_insert.
      * eauto.
      * exists u'. split; [apply elem_of_cons; now right|]. auto.
    + exists u. split; [apply elem_of_cons; now left|].
      split; [lia|reflexivity].
Qed.

(** X6. A metagraph that lists two uids or more, one of them at or beyond
    its own size [n] (every listed uid having a gate), makes the forward
    pass raise [IndexError] on such a uid, when it writes the routing weight
    [routing_weights[uid]].  With a single listed uid the pass does not get
    that far: the deviation [torch.std] takes of one gate output is nan, and
    [torch.normal] raises [RuntimeError]. *)
Theorem uid_beyond_size_raises_index_error gates topk_cfg m w :
  (forall uid, uid ∈ uids m -> is_Some (gates !! uid)) ->
  (length (uids m) = 1%nat ->
   select gates topk_cfg m w
   = Raised (RuntimeError "normal expects std >= 0.0, but found std nan") /\
   forward gates topk_cfg m w
   = Raised (RuntimeError "normal expects std >= 0.0, but found std nan")) /\
  (length (uids m) <> 1%nat ->
   (exists uid, uid ∈ uids m /\ (n m <= uid)%nat) ->
   exists uid, uid ∈ uids m /\ (n m <= uid)%nat /\
     select gates topk_cfg m w = Raised (IndexError uid) /\
     forward gates topk_cfg m w = Raised (IndexError uid)).
Proof.
  intros Hgates.
  destruct (gate_lookup_succeeds gates w (uids m) Hgates) as (out & Hout & Hlen).
  split.
  - intros Hone.
    assert (Hsel : select gates topk_cfg m w
      = Raised (RuntimeError "normal expects std >= 0.0, but found std nan")).
    { unfold select. rewrite Hout. cbn [obind].
      destruct out as [|b [|b' out]]; cbn in Hlen; try lia.
      reflexivity. }
    split; [exact Hsel|]. unfold forward. now rewrite Hsel.
  - intros Hmany Hbig.
    assert (Hlong : (2 <= length out)%nat).
    { destruct Hbig as (u & Hu & _). destruct (uids m) as [|u1 [|u2 us]];
        [inversion Hu|cbn in Hmany; congruence|cbn in Hlen; lia]. }
    destruct (routing_fill_fails m (noise w) (enumerate out) (uids m))
      with (acc := zeros (n m)) as (u & Hu & Hge & Hrun).
    + apply Forall2_same_length_lookup_2.
      * now rewrite length_enumerate.
      * intros i [j b] u Hp Hu. apply lookup_enumerate in Hp as [Hj _].
        cbn in *. now subst.
    + apply length_replicate.
    + exact Hbig.
    + assert (Hsel : select gates topk_cfg m w = Raised (IndexError u)).
      { unfold select. rewrite Hout. cbn [obind].
        destruct out as [|b out]; [cbn in Hlong; lia|]. cbn [torch_cat obind].
        unfold torch_normal_std. rewrite decide_False by lia. cbn [obind].
        rewrite Hrun. reflexivity. }
      exists u. repeat split; auto. unfold forward. now rewrite Hsel.
Qed.

(** The score of the peer at a routing position, before normalisation. *)
Lemma forward_score_at gates topk_cfg m w loss scores routing_uids eps i p :
  forward gates topk_cfg m w = Returned (loss, scores) ->
  select gates topk_cfg m w = Returned routing_uids ->
  lookup_endpoints m routing_uids = Returned eps ->
  routing_uids !! i = Some p ->
  scores !! p
  = Some (get_target_loss w false
            (combine w (joined_responses (Some i) (forward_text w eps).2
                                         (forward_text w eps).1))
          - get_target_loss w false
              (joining_context w (forward_text w eps).2 (forward_text w eps).1)).
Proof.
  intros (ru & eps' & sc & Hsel & Heps & -> & Hfold)%forward_returned Hsel' Heps' Hp.
  assert (ru = routing_uids) by congruence. subst ru.
  assert (eps' = eps) by congruence. subst eps'.
  assert (Hnd : NoDup routing_uids)
    by (now apply select_returned in Hsel as (_ & _ & ? & _)).
  apply ofold_tset_spec in Hfold as (_ & _ & Hin).
  rewrite partial_contexts_keys in Hin by exact Hnd.
  specialize (Hin Hnd p
    (combine w (joined_responses (Some i) (forward_text w eps).2
                                 (forward_text w eps).1))).
  unfold tneg. change (map ?f ?l) with (f <$> l).
  rewrite list_lookup_fmap, Hin.
  - cbn. f_equal. ring.
  - rewrite partial_contexts_distinct by exact Hnd.
    apply list_elem_of_fmap. exists (i, p). split; [reflexivity|].
    now apply elem_of_enumerate.
Qed.

Lemma omap_skip_irrelevant (i : nat)
    (l : list (nat * (Response * ReturnCode))) :
  (forall r op, (i, (r, op)) ∈ l -> op <> Success) ->
  omap (fun '(j, (r, op)) =>
          if bool_decide (op = Success) && negb (bool_decide (Some i = Some j))
          then Some r else None) l
  = omap (fun '(j, (r, op)) =>
            if bool_decide (op = Success)
               && negb (bool_decide (@None nat = Some j))
            then Some r else None) l.
Proof.
  induction l as [|[j [r op]] l IH]; intros Hl; [reflexivity|].
  cbn [omap list_omap].
  rewrite IH by (intros r' op' Hin; eapply Hl; apply elem_of_cons; right; exact Hin).
  destruct (decide (op = Success)) as [->|Hop].
  - destruct (decide (i = j)) as [->|Hij].
    + exfalso. eapply (Hl r Success); [apply elem_of_cons; now left|reflexivity].
    + rewrite !bool_decide_eq_true_2 by reflexivity.
      rewrite (bool_decide_eq_false_2 (Some i = Some j)) by congruence.
      rewrite (bool_decide_eq_false_2 (None = Some j)) by discriminate.
      reflexivity.
  - rewrite !(bool_decide_eq_false_2 (op = Success)) by exact Hop.
    reflexivity.
Qed.

(** Leaving out a response that was not successful changes nothing. *)
Lemma joined_responses_failed (i : nat) (ops : list ReturnCode)
    (responses : list Response) :
  ops !! i <> Some Success ->
  joined_responses (Some i) ops responses = joined_responses None ops responses.
Proof.
  intros Hop. unfold joined_responses.
  apply omap_skip_irrelevant. intros r op Hin.
  apply elem_of_enumerate in Hin.
  apply lookup_zip_with_Some in Hin as (r' & op' & [= <- <-] & _ & Hop').
  congruence.
Qed.

Lemma failed_peer_score gates topk_cfg m w loss scores routing_uids eps i p :
  forward gates topk_cfg m w = Returned (loss, scores) ->
  select gates topk_cfg m w = Returned routing_uids ->
  lookup_endpoints m routing_uids = Returned eps ->
  routing_uids !! i = Some p ->
  (forward_text w eps).2 !! i <> Some Success ->
  scores !! p = Some 0.
Proof.
  intros Hfwd Hsel Heps Hp Hop.
  rewrite (forward_score_at _ _ _ _ _ _ _ _ _ _ Hfwd Hsel Heps Hp).
  unfold joining_context. rewrite (joined_responses_failed i) by exact Hop.
  f_equal. ring.
Qed.

(** X7. A queried peer whose return code is not Success scores exactly 0 in
    that forward pass: the aggregate without it is the joint aggregate. *)
Theorem failed_peer_scores_zero gates topk_cfg m w loss scores
    routing_uids eps i p :
  forward gates topk_cfg m w = Returned (loss, scores) ->
  select gates topk_cfg m w = Returned routing_uids ->
  lookup_endpoints m routing_uids = Returned eps ->
  routing_uids !! i = Some p ->
  (forward_text w eps).2 !! i <> Some Success ->
  scores !! p = Some 0.
Proof. apply failed_peer_score. Qed.

Lemma tsum_zeros (k : nat) : tsum (zeros k) = 0.
Proof.
  induction k as [|k IH]; [reflexivity|].
  unfold zeros. cbn [replicate]. rewrite tsum_cons.
  unfold zeros in IH. rewrite IH. apply Qcplus_0_l.
Qed.

(** When no queried peer answers successfully, every score is 0. *)
Lemma all_failed_scores gates topk_cfg m w loss raw routing_uids eps :
  forward gates topk_cfg m w = Returned (loss, raw) ->
  select gates topk_cfg m w = Returned routing_uids ->
  lookup_endpoints m routing_uids = Returned eps ->
  Forall (fun op => op <> Success) (forward_text w eps).2 ->
  raw = zeros (n m).
Proof.
  intros Hfwd Hsel Heps Hfail.
  destruct (forward_scores_length _ _ _ _ _ _ Hfwd) as [Hlen Hpos].
  apply list_eq. intros j.
  destruct (decide (j < n m)%nat) as [Hj|Hj].
  - unfold zeros. rewrite lookup_replicate_2 by exact Hj.
    destruct (decide (j ∈ routing_uids)) as [Hin|Hout].
    + apply list_elem_of_lookup in Hin as [i Hi].
      eapply failed_peer_score; eauto.
      intros Hop. rewrite List.Forall_forall in Hfail.
      apply (Hfail Success); [|reflexivity].
      apply list_elem_of_In. eapply list_elem_of_lookup_2. exact Hop.
    + eapply forward_score_unqueried; eauto.
  - rewrite !lookup_ge_None_2; [reflexivity| |].
    + unfold zeros. rewrite length_replicate. lia.
    + lia.
Qed.

(** X8. When no queried peer answers successfully, every score of the
    forward pass is 0 and so is their sum; the step's normalisation
    [scores / scores.sum()] divides 0 by 0 without failing: the step appends
    a row of nan to the history, and the moving average is nan for every
    uid from then on. *)
Theorem all_peers_failed_yields_nan_row cfg gates m
    (ws : list (World Response Hidden)) w st loss raw routing_uids eps :
  after_steps cfg gates m ws st ->
  forward gates (nucleus_topk cfg) m w = Returned (loss, raw) ->
  select gates (nucleus_topk cfg) m w = Returned routing_uids ->
  lookup_endpoints m routing_uids = Returned eps ->
  Forall (fun op => op <> Success) (forward_text w eps).2 ->
  raw = zeros (n m) /\ tsum raw = 0 /\
  step cfg gates m w st
  = Returned {| score_history := score_history st ++ [replicate (n m) NaN];
                moving_avg_scores := Some (replicate (n m) NaN) |} /\
  forall (later : list (World Response Hidden)) st',
    after_steps cfg gates m (ws ++ [w] ++ later) st' ->
    moving_avg_scores st' = Some (replicate (n m) NaN).
Proof.
  intros Hafter Hfwd Hsel Heps Hfail.
  pose proof (all_failed_scores _ _ _ _ _ _ _ _ Hfwd Hsel Heps Hfail) as Hraw.
  assert (Hsum : tsum raw = 0) by (rewrite Hraw; apply tsum_zeros).
  assert (Hrow : tdiv raw (tsum raw) = replicate (n m) NaN).
  { rewrite Hsum, Hraw. unfold tdiv, zeros.
    change (map ?f ?l) with (f <$> l). now rewrite fmap_replicate. }
  destruct (after_steps_invariant _ _ _ _ _ Hafter) as [Hinv _].
  destruct (step_runs cfg gates m w st loss raw Hinv Hfwd) as [Hstep Hinv'].
  cbn zeta in Hstep, Hinv'. rewrite Hrow in Hstep, Hinv'.
  assert (Hnan : forall rows : list FloatTensor,
    uniform (n m) rows -> replicate (n m) NaN ∈ rows ->
    mean0 rows = replicate (n m) NaN).
  { intros rows Hu Hin. symmetry. apply replicate_as_Forall. split.
    - apply mean0_length; [|exact Hu]. intros ->. inversion Hin.
    - eapply List.Forall_impl;
        [|apply (mean0_absorbs (fun x => x = NaN)) with (n := n m);
          [intros a b ->; now destruct b|intros a b ->; now destruct a
          |now intros a k ->|exact Hu|]].
      + intros a Ha. now symmetry.
      + apply List.Exists_exists. exists (replicate (n m) NaN).
        split; [now apply list_elem_of_In|].
        apply List.Forall_forall. intros x Hx.
        apply list_elem_of_In in Hx.
        now apply elem_of_replicate in Hx as [-> _]. }
  split; [exact Hraw|]. split; [exact Hsum|]. split.
  - rewrite Hstep, Hnan; [reflexivity| |].
    + destruct Hinv' as (Hu & _). exact Hu.
    + apply elem_of_app. right. now apply list_elem_of_singleton.
  - intros later st' Hlater.
    assert (Hne : ws ++ [w] ++ later <> []) by (now destruct ws).
    destruct (after_steps_state _ _ _ _ _ Hlater Hne)
      as (_ & Hu & _ & Hm & _).
    rewrite Hm. f_equal. apply Hnan; [exact Hu|].
    destruct (after_steps_invariant _ _ _ _ _ Hlater) as [_ Hrows].
    apply Forall2_app_inv_l in Hrows as (rows1 & rows2 & _ & Hrows2 & ->).
    apply Forall2_cons_inv_l in Hrows2 as (row & rows3 & Hstep_row & _ & ->).
    destruct Hstep_row as (loss' & raw' & Hfwd' & ->).
    assert (raw' = raw) by congruence. subst raw'.
    rewrite Hrow. apply elem_of_app. right. apply elem_of_cons. now left.
Qed.

End ValidatorFurther.

Section EpochFurther.
Import Validator.
Local Open Scope Qc_scope.

Context {Response Hidden : Type}.

(** X9. An epoch whose block window is already closed at the first loop test
    takes no step, so [moving_avg_scores] is never assigned: [run_epoch]
    raises [UnboundLocalError] when it reaches the commit and nothing is
    sent.  With [epochs_until_reset] = 0 it does not get that far: the reset
    test [epoch % 0] raises [ZeroDivisionError]. *)
Theorem epoch_without_steps_raises cfg epoch xavier set_weights gates m
    start_block (t : Tick Response Hidden) (ticks : list (Tick Response Hidden)) :
  gate_table_full gates ->
  (start_block + blocks_per_epoch cfg <= block t)%Z ->
  fst (run_epoch cfg epoch xavier set_weights gates m start_block (t :: ticks))
  = Raised (match epochs_until_reset cfg with
            | O => ZeroDivisionError
            | S _ => UnboundLocalError "moving_avg_scores"
            end) /\
  commits (run_epoch cfg epoch xavier set_weights gates m start_block (t :: ticks))
  = [].
Proof.
  intros Hfull Hclosed.
  assert (Hrun :
    run_epoch cfg epoch xavier set_weights gates m start_block (t :: ticks)
    = (Raised (match epochs_until_reset cfg with
               | O => ZeroDivisionError
               | S _ => UnboundLocalError "moving_avg_scores"
               end), [])).
  { unfold run_epoch, run_steps.
    destruct (epochs_until_reset cfg) as [|k] eqn:Hk; [reflexivity|].
    assert (Htest : (block t <? start_block + blocks_per_epoch cfg)%Z = false)
      by (apply Z.ltb_ge; exact Hclosed).
    destruct (Nat.eqb (epoch mod S k) 0).
    - destruct (reset_weights_keeps_table xavier gates Hfull)
        as (gates' & -> & _).
      cbn [obind stepping]. rewrite Htest. reflexivity.
    - cbn [obind stepping]. rewrite Htest. reflexivity. }
  rewrite Hrun. split; reflexivity.
Qed.

(** X10. The commit of [run_epoch] does not go through the repository's own
    [Subtensor]: the call of lines 194-198 passes no [netuid], which
    [Subtensor.set_weights] requires, so an epoch that reaches its commit
    raises [TypeError] there, whatever [set_weights_extrinsic] would do, and
    no epoch returns. *)
Theorem repository_subtensor_rejects_commit
    (set_weights_extrinsic :
       string -> Z -> list nat -> FloatTensor -> Z -> bool -> bool -> bool ->
       outcome bool)
    (version_as_int : Z) (wallet : string)
    cfg epoch xavier gates m start_block (ticks : list (Tick Response Hidden)) :
  let run :=
    run_epoch cfg epoch xavier
      (Subtensor.set_weights set_weights_extrinsic version_as_int wallet)
      gates m start_block ticks in
  (forall res, fst run <> Returned res) /\
  (forall wv, wv ∈ commits run ->
     fst run
     = Raised (TypeError
         "set_weights() missing 1 required positional argument: 'netuid'")).
Proof.
  cbn zeta. split.
  - intros res. unfold run_epoch.
    destruct (obind (run_steps _ _ _ _ _ _ _) _) as [[[gates' st] wv]|e];
      cbn [fst]; discriminate.
  - intros wv (gates' & st & ws & _ & _ & _ & _ & ->)%run_epoch_commit.
    reflexivity.
Qed.

End EpochFurther.

Section FurtherScenarios.
Import Subtensor SubtensorScenarios Validator ValidatorScenarios.
Local Open Scope Qc_scope.

Lemma set_weights_result_is_coherent_witness :
  let run := _do_set_weights (rejecting_substrate "InsufficientStake") "hotkey"
               [0%Z] [65535%Z] 1 0 true false [] in
  fst run = Returned (false, Some "InsufficientStake") /\
  submissions (snd run) = 1%nat.
Proof.
  cbn zeta.
  destruct (set_weights_result_is_coherent
              (rejecting_substrate "InsufficientStake") "hotkey"
              [0%Z] [65535%Z] 1 0 true false []) as (_ & _ & Hret).
  split; [reflexivity|].
  exact (proj1 (Hret false (Some "InsufficientStake") eq_refl)).
Defined.

Lemma selection_size_and_distinctness_witness :
  select (init_gates fresh_gate) 2 three_peers scenario_B = Returned [2; 1]%nat /\
  length [2; 1]%nat = Nat.min (length (uids three_peers)) 2.
Proof.
  split; [exact scenario_B_select|].
  exact (proj1 (selection_size_and_distinctness _ _ _ _ _ scenario_B_select)).
Defined.

Lemma listed_uids_have_gates (m : Metagraph) :
  Forall (fun uid => (uid < 2000)%nat) (uids m) ->
  forall uid, uid ∈ uids m -> is_Some (init_gates fresh_gate !! uid).
Proof.
  intros Hall uid Huid. apply init_gates_full.
  rewrite List.Forall_forall in Hall. apply Hall. now apply list_elem_of_In.
Qed.

Lemma misnumbered_has_gates :
  forall uid, uid ∈ uids misnumbered -> is_Some (init_gates fresh_gate !! uid).
Proof.
  apply listed_uids_have_gates.
  repeat (apply List.Forall_cons; [lia|]). apply List.Forall_nil.
Qed.

Lemma lone_peer_has_gates :
  forall uid, uid ∈ uids lone_peer -> is_Some (init_gates fresh_gate !! uid).
Proof.
  apply listed_uids_have_gates.
  repeat (apply List.Forall_cons; [lia|]). apply List.Forall_nil.
Qed.

Lemma uid_beyond_size_raises_index_error_witness :
  (exists uid, uid ∈ uids misnumbered /\ (n misnumbered <= uid)%nat /\
     forward (init_gates fresh_gate) 2 misnumbered scenario_A
     = Raised (IndexError uid)) /\
  forward (init_gates fresh_gate) 2 lone_peer scenario_A
  = Raised (RuntimeError "normal expects std >= 0.0, but found std nan").
Proof.
  split.
  - destruct (proj2 (uid_beyond_size_raises_index_error
                       (init_gates fresh_gate) 2%nat misnumbered scenario_A
                       misnumbered_has_gates))
      as (uid & Hin & Hbig & _ & Hfwd).
    + cbn. lia.
    + exists 5%nat. split; [|cbn; lia].
      unfold misnumbered, uids. do 2 (apply elem_of_cons; right).
      apply elem_of_cons. now left.
    + exists uid. auto.
  - exact (proj2 (proj1 (uid_beyond_size_raises_index_error
                          (init_gates fresh_gate) 2%nat lone_peer scenario_A
                          lone_peer_has_gates) eq_refl)).
Defined.

Lemma scenario_A_forward :
  forward (init_gates fresh_gate) 3 three_peers scenario_A
  = Returned (q 1 1, [q 0 1; q 3 1; q 1 1]).
Proof. apply (bool_decide_unpack _). vm_compute. exact I. Qed.

Lemma scenario_A_select :
  select (init_gates fresh_gate) 3 three_peers scenario_A
  = Returned [2; 1; 0]%nat.
Proof. vm_compute. reflexivity. Qed.

Lemma failed_peer_scores_zero_witness :
  [q 0 1; q 3 1; q 1 1] !! 0%nat = Some (q 0 1) /\
  forward (init_gates fresh_gate) 3 three_peers scenario_A
  = Returned (q 1 1, [q 0 1; q 3 1; q 1 1]).
Proof.
  split; [|exact scenario_A_forward].
  refine (failed_peer_scores_zero _ _ _ _ _ _ _ ["p2"; "p1"; "p0"] 2%nat 0%nat
            scenario_A_forward scenario_A_select eq_refl eq_refl _).
  discriminate.
Defined.

Lemma all_timeout_forward :
  forward (init_gates fresh_gate) 3 three_peers all_timeout
  = Returned (q 0 1, [q 0 1; q 0 1; q 0 1]).
Proof. apply (bool_decide_unpack _). vm_compute. exact I. Qed.

Lemma all_timeout_select :
  select (init_gates fresh_gate) 3 three_peers all_timeout
  = Returned [2; 1; 0]%nat.
Proof. vm_compute. reflexivity. Qed.

Lemma all_timeout_codes :
  Forall (fun op => op <> Success)
         (forward_text all_timeout ["p2"; "p1"; "p0"]).2.
Proof. repeat constructor; discriminate. Qed.

Lemma all_peers_failed_yields_nan_row_witness :
  step (config 3 3) (init_gates fresh_gate) three_peers all_timeout epoch_start
  = Returned {| score_history := [[NaN; NaN; NaN]];
                moving_avg_scores := Some [NaN; NaN; NaN] |}.
Proof.
  exact (proj1 (proj2 (proj2
    (all_peers_failed_yields_nan_row (config 3 3) (init_gates fresh_gate)
       three_peers [] all_timeout epoch_start (q 0 1) [q 0 1; q 0 1; q 0 1]
       [2; 1; 0]%nat ["p2"; "p1"; "p0"]
       (after_none _ _ _) all_timeout_forward all_timeout_select eq_refl
       all_timeout_codes)))).
Defined.

Lemma epoch_without_steps_raises_witness :
  fst (run_epoch (config 3 3) 1 (fun _ => []) lenient_subtensor
         (init_gates fresh_gate) three_peers 100
         [ {| block := 102; world := scenario_A |} ])
  = Raised (UnboundLocalError "moving_avg_scores").
Proof.
  refine (proj1 (epoch_without_steps_raises (config 3 3) 1%nat (fun _ => [])
                   lenient_subtensor _ three_peers 100%Z
                   {| block := 102; world := scenario_A |} []
                   (init_gates_full fresh_gate) _)).
  cbn. lia.
Defined.

Lemma elem_of_repository_commits :
  harmful_vector_all ∈ commits (harmful_epoch repository_subtensor 3).
Proof.
  rewrite (proj2 harmful_epoch_all). apply list_elem_of_singleton. reflexivity.
Qed.

Lemma repository_subtensor_rejects_commit_witness :
  fst (harmful_epoch repository_subtensor 3)
  = Raised (TypeError
      "set_weights() missing 1 required positional argument: 'netuid'").
Proof.
  exact (proj2 (repository_subtensor_rejects_commit
                  (fun _ _ _ _ _ _ _ _ => Returned true) 0%Z "validator"
                  (config 3 3) 1%nat (fun _ => []) (init_gates fresh_gate)
                  three_peers 100%Z (one_step harmful_peer))
               harmful_vector_all elem_of_repository_commits).
Defined.

End FurtherScenarios.
